(** * immer-store: mutation tracking and path-based notification

    A shallow embedding of [src/index.ts]: the path accumulator
    ([getUpdate]), the subscription registry ([subscribe] and its
    disposers, [updateListeners]), the commit ([flushMutations]) and the
    action wrapper built by [createAction], run on a small model of the
    JavaScript event loop (zero-delay timers and promise continuations).

    Conventions.
    - A JavaScript [Set<string>] is a duplicate-free list in insertion
      order, which is also the order of [Set.prototype.forEach] and of
      [Array.from].
    - [pathListeners] is the plain object [{}] used as a map from path
      strings to arrays: its own properties are a [gmap], and under the
      names of the members of [Object.prototype] a read finds the
      inherited member when there is no own property. Such a member is
      truthy and has neither [push] nor [forEach], so that [subscribe]
      and [updateListeners] throw a [TypeError] when they meet a path
      named like one.
    - A thrown value is an object with a string [message], or a value
      without one. The errors raised by the JavaScript engine itself are
      given with the messages of V8.
    - Objects compared by reference carry an identity: a subscription
      object has the number it was allocated under, a caller-supplied
      update function is a [callback] number.
    - What a caller-supplied update function does to the registry when it
      is invoked is given by [effect]: the disposers it calls. Update
      functions do not call actions and do not throw.
    - An exception that leaves a function given to [setTimeout] ends that
      task and is reported to the host; the event loop goes on.
    - One call of one wrapped action is followed at a time, up to the
      point where nothing of it is pending; the statements about it start
      from a store with no timer pending, so that the timers of the world
      are the ones this call arms.
    - The event loop is the part of it the wrapper relies on: a function
      given to [setTimeout] runs in a later task, in the order of the
      calls of [setTimeout], unless [clearTimeout] is called first; the
      code after an [await] and the handlers of a promise run in
      microtasks, before any timer, once the promise is settled. *)

From Stdlib Require Import Ascii String List ZArith.
From stdpp Require Import gmap strings list pretty.


(** ** Edit records of the draft engine *)

(** A path segment of a patch: a property name or an array index. *)
Inductive key :=
  | Name (s : string)
  | Index (n : N).

(** What [Array.prototype.join] does to one segment. *)
Definition key_to_string (k : key) : string :=
  match k with
  | Name s => s
  | Index n => pretty n
  end.

Inductive op_kind := OpAdd | OpRemove | OpReplace.

Record operation := { op : op_kind; path : list key }.

(** [path.join('.')] *)
Definition join (p : list key) : string :=
  String.concat "." (map key_to_string p).

(** [path.slice(0, path.length - 1)]: every segment but the last; the
    empty path stays empty. *)
Definition slice_parent (p : list key) : list key := removelast p.

(** [paths.add(x)] on a [Set<string>]. *)
Definition set_add (x : string) (s : list string) : list string :=
  if decide (x ∈ s) then s else s ++ [x].

(** The body of the [operations.forEach] callback of [getUpdate]. *)
Definition add_operation (paths : list string) (operation : operation)
  : list string :=
  let paths :=
    match op operation with
    | OpAdd | OpRemove => set_add (join (slice_parent (path operation))) paths
    | OpReplace => paths
    end in
  set_add (join (path operation)) paths.

(** The paths one edit record contributes to the dirty set. *)
Definition contribution (o : operation) : list string :=
  match op o with
  | OpAdd | OpRemove => [join (slice_parent (path o)); join (path o)]
  | OpReplace => [join (path o)]
  end.

(** ** The draft engine (immer), as the interface the store consumes *)

(** What can be thrown: an object whose [message] is a string (an
    [Error]), some other value that is neither [undefined] nor [null] and
    has no [message] (a string, a number, ...), or [undefined]. *)
Inductive error :=
  | Err (message : string)
  | Bare (value : string)
  | Undefined.

(** [error.message], when it is a string. *)
Definition message (e : error) : option string :=
  match e with
  | Err m => Some m
  | _ => None
  end.

(** The [TypeError] of a call of something that is not a function. *)
Definition not_a_function (callee : string) : error :=
  Err (callee +:+ " is not a function").

(** The [TypeError] of reading a property of [undefined]. *)
Definition cannot_read (property : string) : error :=
  Err ("Cannot read properties of undefined (reading '" +:+ property +:+ "')").

Class DraftEngine := {
  snapshot : Type;
  draft : Type;
  createDraft : snapshot → draft;
  (** [finishDraft(draft, listener)]: the new snapshot and the edit
      records handed to the listener. *)
  finishDraft : draft → snapshot * list operation;
  (** The error raised when a finished draft, or a reference into one, is
      used: finishing a draft revokes its proxies. *)
  revoked : error;
}.

(** The set the listener of [getUpdate] has built once it has seen all
    the edit records. *)
Definition dirty_paths (operations : list operation) : list string :=
  fold_left add_operation operations [].

(** [getUpdate(draft)] *)
Definition getUpdate `{DraftEngine} (d : draft) : snapshot * list string :=
  let '(newState, operations) := finishDraft d in
  (newState, dirty_paths operations).

(** ** The subscription registry *)

Definition callback := nat.

Record subscription := {
  sub_id : nat;
  update : callback;
  name : option string;
}.

#[global] Instance subscription_eq_dec : EqDecision subscription.
Proof. solve_decision. Defined.

(** The closure returned by [subscribe]. *)
Inductive disposer :=
  | DisposePaths (sub : subscription) (currentPaths : list string)
  | DisposeGlobal (update : callback).

Class Callbacks := { effect : callback → list disposer }.

Inductive event :=
  | Mutations (actionName : string) (paths : list string)
  | Render (sub : subscription) (path : string)
  | Global (update : callback).

Record world `{DraftEngine} := {
  currentState : snapshot;
  pathListeners : gmap string (list subscription);
  globalListeners : list callback;
  (** subscription objects allocated so far *)
  objects : nat;
  (** the [Set] objects of the callers, by reference *)
  sets : gmap nat (list string);
  (** pending [setTimeout] handles, oldest first, and the next handle *)
  timers : list nat;
  next_timer : nat;
  (** what has been observed: commits and update calls, oldest first *)
  trace : list event;
}.

(** The names of the members of [Object.prototype]. *)
Definition prototype_members : list string :=
  ["constructor"; "__defineGetter__"; "__defineSetter__"; "hasOwnProperty";
   "__lookupGetter__"; "__lookupSetter__"; "isPrototypeOf";
   "propertyIsEnumerable"; "toString"; "valueOf"; "__proto__";
   "toLocaleString"].

(** What a read of a property of [pathListeners] finds. *)
Inductive member :=
  | Own (b : list subscription)
  | Inherited
  | Absent.

(** How a call ends: with a value, or with an exception. *)
Inductive completion (A : Type) :=
  | Normal (a : A)
  | Throw (e : error).

Arguments Normal {A} a.
Arguments Throw {A} e.

(** [list.forEach(f)] for an [f] that may throw: the turns are taken in
    order until one throws. *)
Fixpoint forEach {A S} (f : S → A → S * option error) (l : list A) (s : S)
  : S * option error :=
  match l with
  | [] => (s, None)
  | x :: l =>
      match f s x with
      | (s, None) => forEach f l s
      | (s, Some e) => (s, Some e)
      end
  end.

Section Registry.
Context `{DraftEngine} `{Callbacks}.

Definition with_state (s : snapshot) (w : world) : world :=
  {| currentState := s; pathListeners := pathListeners w;
     globalListeners := globalListeners w; objects := objects w;
     sets := sets w; timers := timers w; next_timer := next_timer w;
     trace := trace w |}.

Definition with_pathListeners (pl : gmap string (list subscription))
  (w : world) : world :=
  {| currentState := currentState w; pathListeners := pl;
     globalListeners := globalListeners w; objects := objects w;
     sets := sets w; timers := timers w; next_timer := next_timer w;
     trace := trace w |}.

Definition with_globalListeners (g : list callback) (w : world) : world :=
  {| currentState := currentState w; pathListeners := pathListeners w;
     globalListeners := g; objects := objects w;
     sets := sets w; timers := timers w; next_timer := next_timer w;
     trace := trace w |}.

Definition with_objects (n : nat) (w : world) : world :=
  {| currentState := currentState w; pathListeners := pathListeners w;
     globalListeners := globalListeners w; objects := n;
     sets := sets w; timers := timers w; next_timer := next_timer w;
     trace := trace w |}.

Definition with_sets (h : gmap nat (list string)) (w : world) : world :=
  {| currentState := currentState w; pathListeners := pathListeners w;
     globalListeners := globalListeners w; objects := objects w;
     sets := h; timers := timers w; next_timer := next_timer w;
     trace := trace w |}.

Definition with_timers (t : list nat) (n : nat) (w : world) : world :=
  {| currentState := currentState w; pathListeners := pathListeners w;
     globalListeners := globalListeners w; objects := objects w;
     sets := sets w; timers := t; next_timer := n;
     trace := trace w |}.

Definition log (e : event) (w : world) : world :=
  {| currentState := currentState w; pathListeners := pathListeners w;
     globalListeners := globalListeners w; objects := objects w;
     sets := sets w; timers := timers w; next_timer := next_timer w;
     trace := trace w ++ [e] |}.

(** Several events observed in a row. *)
Definition logs (es : list event) (w : world) : world :=
  {| currentState := currentState w; pathListeners := pathListeners w;
     globalListeners := globalListeners w; objects := objects w;
     sets := sets w; timers := timers w; next_timer := next_timer w;
     trace := trace w ++ es |}.

(** The array stored under [path], empty when there is none. *)
Definition bucket (w : world) (path : string) : list subscription :=
  default [] (pathListeners w !! path).

(** [array.indexOf(x)]: the first index holding [x], or -1. *)
Definition indexOf {A} (same : A → Prop) `{!∀ x, Decision (same x)}
  (l : list A) : Z :=
  match list_find same l with
  | Some (i, _) => Z.of_nat i
  | None => (-1)%Z
  end.

(** [array.splice(start, 1)]: the array afterwards. A negative [start]
    counts from the end. *)
Definition splice1 {A} (start : Z) (l : list A) : list A :=
  let len := Z.of_nat (length l) in
  let actualStart :=
    if (start <? 0)%Z then Z.max (len + start) 0 else Z.min start len in
  let deleteCount := Z.min 1 (len - actualStart) in
  take (Z.to_nat actualStart) l
    ++ drop (Z.to_nat (actualStart + deleteCount)) l.

Definition same_subscription (s x : subscription) : Prop :=
  sub_id x = sub_id s.

#[global] Instance same_subscription_dec s x :
  Decision (same_subscription s x).
Proof. unfold same_subscription. apply _. Defined.

(** [pathListeners[path]] *)
Definition get (pl : gmap string (list subscription)) (path : string)
  : member :=
  match pl !! path with
  | Some b => Own b
  | None => if decide (path ∈ prototype_members) then Inherited else Absent
  end.

(** One turn of [currentPaths.forEach] in [subscribe]: an inherited
    member is truthy, so that no array is put in its place, and it has no
    [push]. *)
Definition add_listener (sub : subscription)
  (pl : gmap string (list subscription)) (path : string)
  : gmap string (list subscription) * option error :=
  let pl :=
    match get pl path with
    | Absent => <[path := []]> pl
    | _ => pl
    end in
  match get pl path with
  | Own _ => (alter (λ b, b ++ [sub]) path pl, None)
  | _ => (pl, Some (not_a_function "pathListeners[path].push"))
  end.

(** One turn of [currentPaths.forEach] in the disposer. The bucket of a
    path of [currentPaths] exists: [subscribe] made it and nothing ever
    deletes one. *)
Definition remove_listener (sub : subscription)
  (pl : gmap string (list subscription)) (path : string)
  : gmap string (list subscription) :=
  alter (λ b, splice1 (indexOf (same_subscription sub) b) b)
    path pl.

(** [subscribe(update, paths, name)]; [paths] is a reference to the
    caller's set, or [None] when the argument is left out. When a turn
    of [currentPaths.forEach] throws, the subscription stays in the
    buckets it has reached and no disposer is returned. *)
Definition subscribe (update : callback) (paths : option nat)
  (name : option string) (w : world) : world * completion disposer :=
  match paths with
  | Some r =>
      let currentPaths := default [] (sets w !! r) in
      let sub :=
        {| sub_id := objects w; update := update; name := name |} in
      let w := with_objects (S (objects w)) w in
      match forEach (add_listener sub) currentPaths (pathListeners w) with
      | (pl, None) =>
          (with_pathListeners pl w, Normal (DisposePaths sub currentPaths))
      | (pl, Some e) => (with_pathListeners pl w, Throw e)
      end
  | None =>
      (with_globalListeners (globalListeners w ++ [update]) w,
       Normal (DisposeGlobal update))
  end.

(** Calling a disposer. *)
Definition dispose (d : disposer) (w : world) : world :=
  match d with
  | DisposePaths sub currentPaths =>
      with_pathListeners
        (fold_left (remove_listener sub) currentPaths
           (pathListeners w)) w
  | DisposeGlobal update =>
      with_globalListeners
        (splice1 (indexOf (λ u, u = update) (globalListeners w))
           (globalListeners w)) w
  end.

(** Running a caller-supplied update function. *)
Definition call (update : callback) (w : world) : world :=
  fold_left (λ w d, dispose d w) (effect update) w.

(** [pathListeners[path].forEach(...)]: [n] indices are left to visit,
    starting at [k]; the array is read again at every index, and an
    index that is no longer there is passed over. *)
Fixpoint forEach_bucket (path : string) (n k : nat) (w : world) : world :=
  match n with
  | 0 => w
  | S n =>
      let w :=
        match bucket w path !! k with
        | Some sub => call (update sub) (log (Render sub path) w)
        | None => w
        end in
      forEach_bucket path n (S k) w
  end.

(** [globalListeners.forEach((update) => update())] *)
Fixpoint forEach_global (n k : nat) (w : world) : world :=
  match n with
  | 0 => w
  | S n =>
      let w :=
        match globalListeners w !! k with
        | Some update => call update (log (Global update) w)
        | None => w
        end in
      forEach_global n (S k) w
  end.

(** One turn of [paths.forEach] in [updateListeners]: an inherited
    member passes the test and has no [forEach]. *)
Definition notify_path (w : world) (path : string) : world * option error :=
  match get (pathListeners w) path with
  | Own b => (forEach_bucket path (length b) 0 w, None)
  | Inherited => (w, Some (not_a_function "pathListeners[path].forEach"))
  | Absent => (w, None)
  end.

(** [updateListeners(paths)]: the world it leaves, and the exception when
    it throws. *)
Definition updateListeners (paths : list string) (w : world)
  : world * option error :=
  match forEach notify_path paths w with
  | (w, None) => (forEach_global (length (globalListeners w)) 0 w, None)
  | (w, Some e) => (w, Some e)
  end.

(** [flushMutations(draft, actionName)], for a draft that has not been
    finished yet. *)
Definition flushMutations (d : draft) (actionName : string) (w : world)
  : world * option error :=
  let '(newState, paths) := getUpdate d in
  let w := with_state newState w in
  updateListeners paths (log (Mutations actionName paths) w).

End Registry.

(** ** The wrapped action *)

(** The variables one call of a wrapped action closes over. *)
Record invocation `{DraftEngine} := {
  currentDraft : option draft;
  timeout : option nat;
  (** how many drafts this call has opened *)
  generation : nat;
  (** the draft in [currentDraft] has been given to [finishDraft] *)
  finished : bool;
}.

(** What the action function does, one step at a time.
    - [Access f]: an expression starting at [state]: a trap of the proxy
      runs ([configureUpdate]), then [f] is done to the current draft.
    - [Reuse g f]: a reference taken out of the [g]-th draft of this call
      is used again without going through [state]; it works while that
      draft is the current one and has not been finished, and fails
      with [revoked] afterwards.
    - [Raise e]: [throw e]. *)
Inductive step `{DraftEngine} :=
  | Access (f : draft → draft)
  | Reuse (g : nat) (f : draft → draft)
  | Raise (e : error).

(** When the code after an [await] resumes: in a microtask, before any
    pending timer can fire, or in a later task, after the pending timers
    have fired. *)
Inductive resume := BeforeTimers | AfterTimers.

(** An action function: one returning a plain value (or throwing), or one
    returning a [Promise], given by its steps up to the first suspension
    and the steps after each further resumption. *)
Inductive body `{DraftEngine} :=
  | Plain (steps : list step)
  | Async (steps : list step) (rest : list (resume * list step)).

(** The promise an [Async] body has returned. *)
Inductive promise `{DraftEngine} :=
  | Suspended (rest : list (resume * list step))
  | Failed (e : error).

(** How the call of the wrapped action ends for its caller. *)
Inductive result `{DraftEngine} :=
  | Returned
  | Thrown (e : error)
  | Awaitable (p : promise).

Inductive outcome := Fulfilled | Rejected (e : error).

(** What the caller ends up with, once everything has run. *)
Inductive received := Value | Exception (e : error) | Settles (o : outcome).

Record report `{DraftEngine} := {
  after : world;
  caller : received;
  (** how the promise made by [.then(...).catch(...)] settles *)
  chained : option outcome;
}.

Definition dquote : string := String "034"%char EmptyString.

Section Action.
Context `{DraftEngine} `{Callbacks}.

Definition with_draft (d : option draft) (i : invocation) : invocation :=
  {| currentDraft := d; timeout := timeout i; generation := generation i;
     finished := finished i |}.

(** [clearTimeout(timeout)] *)
Definition clearTimeout (t : option nat) (w : world) : world :=
  match t with
  | Some h => with_timers (filter (λ x, x ≠ h) (timers w)) (next_timer w) w
  | None => w
  end.

(** [setTimeout(...)]: the new handle and the world with it pending. *)
Definition setTimeout (w : world) : nat * world :=
  (next_timer w,
   with_timers (timers w ++ [next_timer w]) (S (next_timer w)) w).

(** [configureUpdate()] *)
Definition configureUpdate (iw : invocation * world) : invocation * world :=
  let '(i, w) := iw in
  let i :=
    match currentDraft i with
    | None =>
        {| currentDraft := Some (createDraft (currentState w));
           timeout := timeout i; generation := S (generation i);
           finished := false |}
    | Some _ => i
    end in
  let w := clearTimeout (timeout i) w in
  let '(h, w) := setTimeout w in
  ({| currentDraft := currentDraft i; timeout := Some h;
      generation := generation i; finished := finished i |}, w).

(** [flushMutations(currentDraft, name); currentDraft = null], as it
    stands in the function given to [setTimeout], in the one given to
    [.then] and after a synchronous return. [finishDraft] throws on a
    draft that has been finished already. When the notification throws,
    the assignment is not reached: the draft, finished by then, stays in
    [currentDraft]. *)
Definition flush (name : string) (d : draft) (iw : invocation * world)
  : invocation * world * option error :=
  let '(i, w) := iw in
  if finished i then (i, w, Some revoked)
  else
    match flushMutations d name w with
    | (w, None) => (with_draft None i, w, None)
    | (w, Some e) =>
        ({| currentDraft := currentDraft i; timeout := timeout i;
            generation := generation i; finished := true |}, w, Some e)
    end.

(** The function given to [setTimeout]. An exception it throws goes to
    the host; with [currentDraft] empty that is all it does, [finishDraft]
    throwing at once. *)
Definition on_timer (name : string) (iw : invocation * world)
  : invocation * world :=
  let '(i, w) := iw in
  match currentDraft i with
  | Some d => fst (flush name d (i, w))
  | None => (i, w)
  end.

(** The event loop runs the timer [h] if it is still pending. *)
Definition fire (name : string) (iw : invocation * world) (h : nat)
  : invocation * world :=
  let '(i, w) := iw in
  if decide (h ∈ timers w)
  then on_timer name (i, clearTimeout (Some h) w)
  else (i, w).

(** A turn of the event loop in which the pending timers fire. *)
Definition run_timers (name : string) (iw : invocation * world)
  : invocation * world :=
  fold_left (fire name) (timers (snd iw)) iw.

Definition run_step (s : step) (iw : invocation * world)
  : invocation * world * option error :=
  match s with
  | Access f =>
      let '(i, w) := configureUpdate iw in
      if finished i then (i, w, Some revoked)
      else (with_draft (f <$> currentDraft i) i, w, None)
  | Reuse g f =>
      let '(i, w) := iw in
      match currentDraft i with
      | Some d =>
          if decide (g = generation i)
          then
            if finished i then (i, w, Some revoked)
            else (with_draft (Some (f d)) i, w, None)
          else (i, w, Some revoked)
      | None => (i, w, Some revoked)
      end
  | Raise e => (iw, Some e)
  end.

(** Steps run until one throws. *)
Fixpoint run_steps (steps : list step) (iw : invocation * world)
  : invocation * world * option error :=
  match steps with
  | [] => (iw, None)
  | s :: steps =>
      match run_step s iw with
      | (iw, None) => run_steps steps iw
      | (iw, Some e) => (iw, Some e)
      end
  end.

(** The variables of a call that has just begun. *)
Definition initial : invocation :=
  {| currentDraft := None; timeout := None; generation := 0;
     finished := false |}.

(** [target[key](payload)]: from the call of the wrapped action to its
    return to the caller. *)
Definition call_action (name : string) (b : body) (w : world)
  : invocation * world * result :=
  let start := (initial, w) in
  match b with
  | Plain steps =>
      match run_steps steps start with
      | (i, w, Some e) => (i, w, Thrown e)
      | (i, w, None) =>
          match currentDraft i with
          | Some d =>
              let w := clearTimeout (timeout i) w in
              match flush name d (i, w) with
              | (i, w, None) => (i, w, Returned)
              | (i, w, Some e) => (i, w, Thrown e)
              end
          | None => (i, clearTimeout (timeout i) w, Returned)
          end
      end
  | Async steps rest =>
      match run_steps steps start with
      | (i, w, Some e) => (i, w, Awaitable (Failed e))
      | (i, w, None) => (i, w, Awaitable (Suspended rest))
      end
  end.

(** The rest of an [Async] body, up to the settlement of its promise. *)
Fixpoint continue (name : string) (rest : list (resume * list step))
  (iw : invocation * world) : invocation * world * outcome :=
  match rest with
  | [] => (iw, Fulfilled)
  | (r, steps) :: rest =>
      let iw :=
        match r with
        | AfterTimers => run_timers name iw
        | BeforeTimers => iw
        end in
      match run_steps steps iw with
      | (iw, None) => continue name rest iw
      | (iw, Some e) => (iw, Rejected e)
      end
  end.

(** The function given to [.then]: the state it leaves, and the
    exception when it throws. *)
Definition on_fulfilled (name : string) (iw : invocation * world)
  : invocation * world * option error :=
  let '(i, w) := iw in
  let w := clearTimeout (timeout i) w in
  match currentDraft i with
  | Some d => flush name d (i, w)
  | None => (i, w, None)
  end.

Definition disposed_message (name : string) : string :=
  "You are asynchronously changing state in the action " +:+ dquote
    +:+ name +:+ dquote +:+ ". Make sure you point to " +:+ dquote
    +:+ "state" +:+ dquote
    +:+ " again as the previous state draft has been disposed".

(** The function given to [.catch]: the error it throws. Reading
    [indexOf] of a message that is not there is an error of its own. *)
Definition on_rejected (name : string) (e : error) : error :=
  match e with
  | Err m =>
      match String.index 0 "proxy that has been revoked" m with
      | Some (S _) => Err (disposed_message name)
      | _ => e
      end
  | Bare _ => cannot_read "indexOf"
  | Undefined => cannot_read "message"
  end.

(** The promise settles and its handlers run: how it settles, and how
    the promise made by [.then(...).catch(...)] does. *)
Definition settle (name : string) (p : promise) (iw : invocation * world)
  : invocation * world * outcome * outcome :=
  let '(iw, o) :=
    match p with
    | Suspended rest => continue name rest iw
    | Failed e => (iw, Rejected e)
    end in
  match o with
  | Fulfilled =>
      match on_fulfilled name iw with
      | (iw, None) => (iw, Fulfilled, Fulfilled)
      | (iw, Some e) => (iw, Fulfilled, Rejected (on_rejected name e))
      end
  | Rejected e => (iw, Rejected e, Rejected (on_rejected name e))
  end.

(** The call and everything it leaves behind, until nothing is pending. *)
Definition run_action (name : string) (b : body) (w : world) : report :=
  let '(i, w, r) := call_action name b w in
  match r with
  | Returned =>
      {| after := snd (run_timers name (i, w)); caller := Value;
         chained := None |}
  | Thrown e =>
      {| after := snd (run_timers name (i, w)); caller := Exception e;
         chained := None |}
  | Awaitable p =>
      let '(iw, o, c) := settle name p (i, w) in
      {| after := snd (run_timers name iw); caller := Settles o;
         chained := Some c |}
  end.

End Action.

(** The commits in a trace, oldest first. *)
Definition commits (t : list event) : list (string * list string) :=
  omap (λ e, match e with Mutations n p => Some (n, p) | _ => None end) t.

(** [createStore(config)]: nothing subscribed, nothing pending. The sets
    of the callers are given with the world they live in. *)
Definition createStore `{DraftEngine} (state : snapshot)
  (sets : gmap nat (list string)) : world :=
  {| currentState := fst (finishDraft (createDraft state));
     pathListeners := ∅; globalListeners := []; objects := 0;
     sets := sets; timers := []; next_timer := 0; trace := [] |}.

(** ** Vocabulary of the statements *)

(** Every subscription object in a bucket has been allocated. *)
Definition allocated `{DraftEngine} (w : world) : Prop :=
  ∀ (p : string) (s : subscription), s ∈ bucket w p → sub_id s < objects w.

(** What notification leaves alone: the state, the timers, the sets of
    the callers, the allocator and the commits seen so far. *)
Definition untouched `{DraftEngine} (w w' : world) : Prop :=
  currentState w' = currentState w
  ∧ timers w' = timers w
  ∧ next_timer w' = next_timer w
  ∧ sets w' = sets w
  ∧ objects w' = objects w
  ∧ commits (trace w') = commits (trace w).

(** The edits of several accesses in a row, done to one draft. *)
Definition apply_all `{DraftEngine} (fs : list (draft → draft)) (d : draft)
  : draft :=
  fold_left (λ d f, f d) fs d.

(** A step that goes through [state]. *)
Definition is_access `{DraftEngine} (s : step) : Prop :=
  match s with
  | Access _ => True
  | _ => False
  end.

(** Paths none of which is named like a member of [Object.prototype]. *)
Definition ordinary (paths : list string) : Prop :=
  Forall (λ p, p ∉ prototype_members) paths.

(** A call with the draft [d] open and its deferred commit pending. *)
Definition armed `{DraftEngine} (iw : invocation * world) (d : draft) : Prop :=
  ∃ h, currentDraft (fst iw) = Some d
       ∧ timeout (fst iw) = Some h
       ∧ timers (snd iw) = [h]
       ∧ h < next_timer (snd iw)
       ∧ finished (fst iw) = false.

(** A call with no draft open and nothing pending. *)
Definition idle `{DraftEngine} (iw : invocation * world) : Prop :=
  currentDraft (fst iw) = None ∧ timers (snd iw) = [].

(** The states a call goes through. *)
Definition coherent `{DraftEngine} (iw : invocation * world) : Prop :=
  idle iw ∨ ∃ d, armed iw d.

(** ** A journalling draft engine, to run the store on examples

    A snapshot is the list of the edit records committed so far, a draft
    adds the records of the edits made through it. *)
Definition journal : DraftEngine :=
  {| snapshot := list operation;
     draft := list operation * list operation;
     createDraft := λ s, (s, []);
     finishDraft := λ d, (fst d ++ snd d, snd d);
     revoked :=
       Err "Cannot perform 'set' on a proxy that has been revoked"
  |}.

(** An edit made through a draft, and the step that makes it through
    [state]. *)
Definition record (o : operation) : @draft journal → @draft journal :=
  λ d, (fst d, snd d ++ [o]).

Definition edit (o : operation) : @step journal :=
  @Access journal (record o).

(** [state[k] = v] for a key that is there already. *)
Definition assign (k : string) : operation :=
  {| op := OpReplace; path := [Name k] |}.

Definition boom : error := Err "boom".

(** Update functions that leave the registry alone. *)
Definition quiet : Callbacks := {| effect := λ _, [] |}.

(** An update function, 7, that on being called disposes the third
    subscription made on {"x"} (a component unmounting another one). *)
Definition unmounting : Callbacks :=
  {| effect := λ u,
       if decide (u = 7)
       then [DisposePaths {| sub_id := 2; update := 9; name := None |} ["x"]]
       else [] |}.

(** A store with the set {"x"} at reference 0, the set {"x", "y"} at
    reference 1, and nothing subscribed. *)
Definition store_x : @world journal :=
  @createStore journal [] {[ 0 := ["x"]; 1 := ["x"; "y"] ]}.

(** Three subscriptions on {"x"}, with the update functions 7, 8 and 9,
    and a global subscriber, 5. *)
Definition sub0 : subscription := {| sub_id := 0; update := 7; name := None |}.
Definition sub1 : subscription := {| sub_id := 1; update := 8; name := None |}.
Definition sub2 : subscription := {| sub_id := 2; update := 9; name := None |}.

Definition three_on_x : @world journal :=
  fst (subscribe 5 None None
         (fst (subscribe 9 (Some 0) None
                 (fst (subscribe 8 (Some 0) None
                         (fst (subscribe 7 (Some 0) None store_x))))))).


(** ** The rest of the store *)

(** What the registry keeps true: subscription objects in buckets have
    been allocated, no bucket holds one twice, and the sets of the callers
    hold no element twice. *)
Definition well_formed `{DraftEngine} (w : world) : Prop :=
  allocated w
  ∧ (∀ p, NoDup (map sub_id (bucket w p)))
  ∧ (∀ r content, sets w !! r = Some content → NoDup content).

(** All the steps of a body, in the order of the source text. *)
Definition steps_of `{DraftEngine} (b : body) : list step :=
  match b with
  | Plain steps => steps
  | Async steps rest => steps ++ concat (map snd rest)
  end.

#[local] Unset Elimination Schemes.

(** The declared actions: a function, or an object of further actions,
    given by its own properties in the order of [Object.keys]. *)
Inductive declared `{DraftEngine} :=
  | Fn (func : body)
  | Nest (members : list (string * declared)).

(** What the store exposes in their place: the function that
    [createAction] puts under a key, which closes over [name] and [func],
    or an object of these. *)
Inductive exposed `{DraftEngine} :=
  | Act (name : string) (func : body)
  | Group (members : list (string * exposed)).

#[local] Set Elimination Schemes.

(** [target[key] = value] on an object given by its own properties: the
    value of a property that is there is replaced, a new property comes
    last. *)
Fixpoint assign_key {A} (key : string) (value : A)
  (target : list (string * A)) : list (string * A) :=
  match target with
  | [] => [(key, value)]
  | (k, v) :: target =>
      if decide (k = key) then (k, value) :: target
      else (k, v) :: assign_key key value target
  end.

(** [target[key]] *)
Fixpoint read_key {A} (key : string) (target : list (string * A))
  : option A :=
  match target with
  | [] => None
  | (k, v) :: target => if decide (k = key) then Some v else read_key key target
  end.

(** [createAction(target, key, name, func)]: the wrapped action is put
    under [key] and the target returned. *)
Definition createAction `{DraftEngine} (target : list (string * exposed))
  (key name : string) (func : body) : list (string * exposed) :=
  assign_key key (Act name func) target.

(** The function given to [reduce] in [createNestedStructure], with
    [createAction] as the factory; the inner [fix] is the recursive call
    [createNestedStructure(funcOrNested, factory, newPath)]. *)
Fixpoint reduce_key `{DraftEngine} (path : list string)
  (aggr : list (string * exposed)) (key : string) (funcOrNested : declared)
  {struct funcOrNested} : list (string * exposed) :=
  let newPath := path ++ [key] in
  match funcOrNested with
  | Fn func => createAction aggr key (String.concat "." newPath) func
  | Nest members =>
      assign_key key
        (Group
           ((fix reduce (ms : list (string * declared))
               (aggr : list (string * exposed)) :=
               match ms with
               | [] => aggr
               | (k, n) :: ms => reduce ms (reduce_key newPath aggr k n)
               end) members []))
        aggr
  end.

(** [createNestedStructure(structure, createAction, path)] *)
Definition createNestedStructure `{DraftEngine}
  (structure : list (string * declared)) (path : list string)
  : list (string * exposed) :=
  fold_left (λ aggr kn, reduce_key path aggr (fst kn) (snd kn)) structure [].

(** The [actions] of the store returned by [createStore]:
    [createNestedStructure(config.actions || {}, createAction)]. *)
Definition store_actions `{DraftEngine}
  (actions : option (list (string * declared))) : list (string * exposed) :=
  createNestedStructure (default [] actions) [].

(** Objects have each key once, at every level. *)
Fixpoint keyed_once `{DraftEngine} (n : declared) : Prop :=
  match n with
  | Fn _ => True
  | Nest members =>
      NoDup (map fst members)
      ∧ (fix all (ms : list (string * declared)) : Prop :=
           match ms with
           | [] => True
           | (_, n) :: ms => keyed_once n ∧ all ms
           end) members
  end.

(** [structure[k1][k2]...] for the declared actions. *)
Fixpoint declared_at `{DraftEngine} (ks : list string) (n : declared)
  : option declared :=
  match ks with
  | [] => Some n
  | k :: ks =>
      match n with
      | Fn _ => None
      | Nest members => read_key k members ≫= declared_at ks
      end
  end.

(** [actions[k1][k2]...] for the exposed ones. *)
Fixpoint exposed_at `{DraftEngine} (ks : list string) (n : exposed)
  : option exposed :=
  match ks with
  | [] => Some n
  | k :: ks =>
      match n with
      | Act _ _ => None
      | Group members => read_key k members ≫= exposed_at ks
      end
  end.

(** What is exposed for a declared node found under the keys [path]. *)
Definition expose `{DraftEngine} (path : list string) (n : declared)
  : exposed :=
  match n with
  | Fn func => Act (String.concat "." path) func
  | Nest members => Group (createNestedStructure members path)
  end.



(** Declared actions with a function at the top and one in a group. *)
Definition declared_example : list (string * @declared journal) :=
  [("reset", @Fn journal (Plain [edit (assign "count")]));
   ("user",
    @Nest journal
      [("login", @Fn journal (Plain [edit (assign "name")]))])].




(** The update function 5 subscribed twice, after 6 and after 7. *)
Definition four_globals : @world journal :=
  fst (subscribe 5 None None
         (fst (subscribe 7 None None
                 (fst (subscribe 5 None None
                         (fst (subscribe 6 None None store_x))))))).

(** A store with a set that holds a path named like a member of
    [Object.prototype], between two that are not. *)
Definition store_proto : @world journal :=
  @createStore journal [] {[ 0 := ["x"; "constructor"; "y"] ]}.

(** At most one deferred commit of the call is pending: the one whose
    handle [timeout] holds, and then [currentDraft] is not empty. *)
Definition tidy `{DraftEngine} (iw : invocation * world) : Prop :=
  timers (snd iw) = []
  ∨ ∃ h d, timers (snd iw) = [h]
           ∧ timeout (fst iw) = Some h
           ∧ currentDraft (fst iw) = Some d.

(** * Properties *)

(** ** The path accumulator *)

Lemma set_add_elem (p x : string) (s : list string) :
  p ∈ set_add x s ↔ p = x ∨ p ∈ s.
Proof.
  unfold set_add. case_decide as Hx.
  - split; [by right | intros [-> | ?]; done].
  - rewrite elem_of_app, list_elem_of_singleton. tauto.
Qed.

Lemma set_add_NoDup (x : string) (s : list string) :
  NoDup s → NoDup (set_add x s).
Proof.
  intros Hs. unfold set_add. case_decide as Hx; [done |].
  apply NoDup_app. split_and!; [done | | apply NoDup_singleton].
  intros y Hy ->%list_elem_of_singleton. done.
Qed.

Lemma add_operation_elem (p : string) (paths : list string) (o : operation) :
  p ∈ add_operation paths o ↔ p ∈ paths ∨ p ∈ contribution o.
Proof.
  unfold add_operation, contribution.
  destruct (op o); rewrite ?set_add_elem, ?elem_of_cons, ?elem_of_nil; tauto.
Qed.

Lemma add_operation_NoDup (paths : list string) (o : operation) :
  NoDup paths → NoDup (add_operation paths o).
Proof.
  intros Hp. unfold add_operation.
  destruct (op o); auto using set_add_NoDup.
Qed.

Lemma accumulate_elem (p : string) (ops : list operation) :
  ∀ acc : list string,
    p ∈ fold_left add_operation ops acc
    ↔ p ∈ acc ∨ ∃ o, o ∈ ops ∧ p ∈ contribution o.
Proof.
  induction ops as [| o ops IH]; intros acc; simpl.
  - split; [by left | intros [? | (o & Ho & _)]; [done |]].
    by apply elem_of_nil in Ho.
  - rewrite IH, add_operation_elem. split.
    + intros [[? | ?] | (o' & Ho' & ?)].
      * by left.
      * right. exists o. split; [left | done].
      * right. exists o'. split; [by right | done].
    + intros [? | (o' & Ho' & ?)]; [by left; left |].
      apply elem_of_cons in Ho' as [-> | Ho'].
      * left. by right.
      * right. by exists o'.
Qed.

Lemma accumulate_NoDup (ops : list operation) :
  ∀ acc : list string, NoDup acc → NoDup (fold_left add_operation ops acc).
Proof.
  induction ops as [| o ops IH]; intros acc Hacc; simpl; [done |].
  by apply IH, add_operation_NoDup.
Qed.

Lemma dirty_paths_elem (p : string) (ops : list operation) :
  p ∈ dirty_paths ops ↔ ∃ o, o ∈ ops ∧ p ∈ contribution o.
Proof.
  unfold dirty_paths. rewrite accumulate_elem, elem_of_nil.
  split; [intros [[] | ?]; done | by right].
Qed.

Lemma contribution_elem (p : string) (o : operation) :
  p ∈ contribution o
  ↔ p = join (path o)
    ∨ (op o = OpAdd ∨ op o = OpRemove) ∧ p = join (slice_parent (path o)).
Proof.
  unfold contribution.
  destruct (op o); rewrite ?elem_of_cons, ?elem_of_nil;
    intuition congruence.
Qed.

(** C1. The dirty path set of a commit is what [getUpdate] accumulates
    from the edit records of [finishDraft]: a path string belongs to it
    exactly when it is the dot-joined path of some record, or the
    dot-joined parent path (all segments but the last) of some record of
    kind add or remove; a replace record gives only its own path, and
    the set has no duplicates. For the single record that adds [newKey]
    to [obj], the set is exactly {"obj.newKey", "obj"}. *)
Theorem getUpdate_dirty_paths `{DraftEngine} :
  (∀ d : draft,
     getUpdate d = (fst (finishDraft d), dirty_paths (snd (finishDraft d))))
  ∧ (∀ (ops : list operation),
       NoDup (dirty_paths ops)
       ∧ ∀ p : string,
           p ∈ dirty_paths ops
           ↔ ∃ o, o ∈ ops
                  ∧ (p = join (path o)
                     ∨ (op o = OpAdd ∨ op o = OpRemove)
                       ∧ p = join (slice_parent (path o))))
  ∧ (∀ p : list key,
       dirty_paths [{| op := OpReplace; path := p |}] = [join p])
  ∧ (∀ (obj newKey p : string),
       p ∈ dirty_paths [{| op := OpAdd; path := [Name obj; Name newKey] |}]
       ↔ p = obj +:+ "." +:+ newKey ∨ p = obj).
Proof.
  split_and!.
  - intros d. unfold getUpdate. by destruct (finishDraft d).
  - intros ops. split; [apply accumulate_NoDup, NoDup_nil_2 |].
    intros p. rewrite dirty_paths_elem.
    by setoid_rewrite contribution_elem.
  - intros p. reflexivity.
  - intros obj newKey p. rewrite dirty_paths_elem. split.
    + intros (o & ->%list_elem_of_singleton & Hp).
      apply contribution_elem in Hp as [-> | [_ ->]]; [by left | by right].
    + intros Hp. eexists. split; [apply list_elem_of_singleton; done |].
      apply contribution_elem. simpl. destruct Hp as [-> | ->]; auto.
Qed.

(** Pushing onto the array [foo] of length 2 marks the new index and the
    array itself. *)
Example push_marks_parent :
  dirty_paths [{| op := OpAdd; path := [Name "foo"; Index 2] |}]
  = ["foo"; "foo.2"].
Proof. reflexivity. Qed.

Example replace_marks_itself :
  dirty_paths [{| op := OpReplace; path := [Name "a"; Name "b"] |}] = ["a.b"].
Proof. reflexivity. Qed.

(** A replace at the root has the empty path, joined to the empty string. *)
Example root_replace : dirty_paths [{| op := OpReplace; path := [] |}] = [""].
Proof. reflexivity. Qed.

(** ** Arrays: [indexOf] and [splice] *)

Lemma indexOf_absent {A} (same : A → Prop) `{!∀ x, Decision (same x)}
  (l : list A) :
  Forall (λ x, ¬ same x) l → indexOf same l = (-1)%Z.
Proof.
  intros Hl. unfold indexOf.
  by rewrite (proj2 (list_find_None same l) Hl).
Qed.

Lemma indexOf_first {A} (same : A → Prop) `{!∀ x, Decision (same x)}
  (l1 l2 : list A) (x : A) :
  Forall (λ y, ¬ same y) l1 → same x →
  indexOf same (l1 ++ x :: l2) = Z.of_nat (length l1).
Proof.
  intros Hl1 Hx. unfold indexOf.
  assert (list_find same (l1 ++ x :: l2) = Some (length l1, x)) as ->; [| done].
  apply list_find_Some. split_and!.
  - by rewrite list_lookup_middle.
  - done.
  - intros j y Hj Hlt. rewrite lookup_app_l in Hj by done.
    rewrite Forall_forall in Hl1. apply Hl1.
    by eapply list_elem_of_lookup_2.
Qed.

Lemma splice1_at {A} (l1 l2 : list A) (x : A) :
  splice1 (Z.of_nat (length l1)) (l1 ++ x :: l2) = l1 ++ l2.
Proof.
  unfold splice1. rewrite length_app. simpl length.
  destruct (Z.ltb_spec (Z.of_nat (length l1)) 0) as [? | _]; [lia |].
  rewrite Z.min_l by lia. rewrite Z.min_l by lia.
  rewrite Nat2Z.id.
  replace (Z.to_nat (Z.of_nat (length l1) + 1)) with (S (length l1)) by lia.
  rewrite take_app_length. f_equal.
  rewrite cons_middle, app_assoc.
  rewrite drop_app_length'; [done |].
  rewrite length_app. simpl. lia.
Qed.

(** [splice(-1, 1)] takes the last element away. *)
Lemma splice1_minus_one {A} (l : list A) :
  splice1 (-1) l = removelast l.
Proof.
  destruct l as [| x l _] using rev_ind; [done |].
  unfold splice1. rewrite removelast_last, length_app. simpl length.
  destruct (Z.ltb_spec (-1) 0) as [_ | ?]; [| lia].
  rewrite Z.max_l by lia. rewrite Z.min_l by lia.
  replace (Z.to_nat (Z.of_nat (length l + 1) + -1)) with (length l) by lia.
  replace (Z.to_nat (Z.of_nat (length l + 1) + -1 + 1))
    with (length (l ++ [x])) by (rewrite length_app; simpl; lia).
  by rewrite take_app_length, drop_all, app_nil_r.
Qed.

(** A disposer called for a subscription that is no longer in the bucket
    takes the last subscription of the bucket away. *)
Lemma splice_absent_subscription (sub : subscription)
  (b : list subscription) :
  Forall (λ x, sub_id x ≠ sub_id sub) b →
  splice1 (indexOf (same_subscription sub) b) b = removelast b.
Proof.
  intros Hb. rewrite indexOf_absent; [apply splice1_minus_one | done].
Qed.

Lemma splice_fresh_subscription (sub : subscription)
  (b : list subscription) :
  Forall (λ x, sub_id x ≠ sub_id sub) b →
  splice1 (indexOf (same_subscription sub) (b ++ [sub])) (b ++ [sub]) = b.
Proof.
  intros Hb. rewrite indexOf_first; [| done | done].
  by rewrite splice1_at, app_nil_r.
Qed.

(** ** Subscribing and disposing *)


Lemma get_ordinary (pl : gmap string (list subscription)) (p : string) :
  p ∉ prototype_members → get pl p ≠ Inherited.
Proof.
  intros Hp. unfold get. destruct (pl !! p); [done |].
  by rewrite decide_False.
Qed.

Lemma get_inherited (pl : gmap string (list subscription)) (p : string) :
  get pl p = Inherited ↔ pl !! p = None ∧ p ∈ prototype_members.
Proof.
  unfold get. destruct (pl !! p); [by split; [| intros []] |].
  case_decide; split; try done; by intros [].
Qed.

(** A turn of [subscribe] either puts the subscription at the end of the
    bucket of the path, made on the spot if need be, or throws and
    changes nothing. *)
Lemma add_listener_cases (sub : subscription)
  (pl : gmap string (list subscription)) (p : string) :
  (get pl p ≠ Inherited
   ∧ add_listener sub pl p
     = (<[p := default [] (pl !! p) ++ [sub]]> pl, None))
  ∨ (get pl p = Inherited
     ∧ add_listener sub pl p
       = (pl, Some (not_a_function "pathListeners[path].push"))).
Proof.
  unfold add_listener, get.
  destruct (pl !! p) as [b |] eqn:Hb.
  - left. rewrite Hb. split; [done |]. f_equal.
    apply map_eq. intros q. rewrite lookup_alter.
    destruct (decide (p = q)) as [<- | Hpq].
    + by rewrite lookup_insert_eq, Hb.
    + by rewrite lookup_insert_ne.
  - case_decide as Hp.
    + right. by rewrite Hb.
    + left. rewrite lookup_insert_eq. split; [done |]. f_equal.
      apply map_eq. intros q. rewrite lookup_alter.
      destruct (decide (p = q)) as [<- | Hpq].
      * by rewrite !lookup_insert_eq.
      * by rewrite !lookup_insert_ne.
Qed.

(** [currentPaths.forEach] in [subscribe]: the subscription has reached
    the buckets of the paths before the first one that throws, all of
    them when none does. *)
Lemma add_listeners_reached (sub : subscription) (ps : list string) :
  ∀ (pl pl' : gmap string (list subscription)) (r : option error),
    NoDup ps →
    forEach (add_listener sub) ps pl = (pl', r) →
    ∃ reached,
      (∀ q, pl' !! q
            = if decide (q ∈ reached)
              then Some (default [] (pl !! q) ++ [sub])
              else pl !! q)
      ∧ match r with
        | None => reached = ps
        | Some e =>
            e = not_a_function "pathListeners[path].push"
            ∧ ∃ q rest,
                ps = reached ++ q :: rest
                ∧ pl !! q = None ∧ q ∈ prototype_members
        end.
Proof.
  induction ps as [| p ps IH]; intros pl pl' r Hnd Hrun; simpl in Hrun.
  - injection Hrun as <- <-. exists []. split; [| done].
    intros q. by rewrite decide_False by apply not_elem_of_nil.
  - apply NoDup_cons in Hnd as [Hp Hnd].
    destruct (add_listener_cases sub pl p) as [[_ Hadd] | [Hinh Hadd]];
      rewrite Hadd in Hrun.
    + destruct (IH _ _ _ Hnd Hrun) as (reached & Hlook & Hr).
      assert (p ∉ reached) as Hp'.
      { destruct r as [e |].
        - destruct Hr as (_ & q & rest & -> & _).
          intros Hin. apply Hp, elem_of_app. by left.
        - by subst reached. }
      exists (p :: reached). split.
      * intros q. rewrite Hlook.
        destruct (decide (p = q)) as [<- | Hpq].
        { rewrite (decide_False (P := p ∈ reached)) by done.
          rewrite (decide_True (P := p ∈ p :: reached)) by left.
          by rewrite lookup_insert_eq. }
        rewrite lookup_insert_ne by done.
        destruct (decide (q ∈ reached)) as [Hq | Hq].
        { by rewrite (decide_True (P := q ∈ p :: reached)) by (by right). }
        rewrite (decide_False (P := q ∈ p :: reached)); [done |].
        rewrite elem_of_cons. intros [Heq | Hin]; [by apply Hpq | by apply Hq].
      * destruct r as [e |]; [| by subst reached].
        destruct Hr as (-> & q & rest & -> & Hq & Hqm).
        split; [done |]. exists q, rest. split_and!; [done | | done].
        rewrite lookup_insert_ne in Hq; [done |].
        intros ->. apply Hp, elem_of_app. right. left.
    + injection Hrun as <- <-. exists []. split.
      * intros q. by rewrite decide_False by apply not_elem_of_nil.
      * split; [done |]. exists p, ps. by apply get_inherited in Hinh as [? ?].
Qed.

(** What a call of [subscribe] with a set does, whether it returns or
    throws. *)
Lemma subscribe_reached `{DraftEngine} (w : world) (u : callback) (r : nat)
  (name : option string) :
  NoDup (default [] (sets w !! r)) →
  let sub := {| sub_id := objects w; update := u; name := name |} in
  let content := default [] (sets w !! r) in
  ∃ reached,
    (∀ p, bucket (fst (subscribe u (Some r) name w)) p
          = if decide (p ∈ reached) then bucket w p ++ [sub] else bucket w p)
    ∧ match snd (subscribe u (Some r) name w) with
      | Normal d => d = DisposePaths sub content ∧ reached = content
      | Throw e =>
          e = not_a_function "pathListeners[path].push"
          ∧ ∃ q rest,
              content = reached ++ q :: rest
              ∧ pathListeners w !! q = None ∧ q ∈ prototype_members
      end.
Proof.
  intros Hnd sub content. unfold subscribe. fold sub.
  destruct (forEach (add_listener sub) (default [] (sets w !! r))
              (pathListeners (with_objects (S (objects w)) w)))
    as [pl' res] eqn:Hrun.
  destruct (add_listeners_reached sub _ _ _ _ Hnd Hrun)
    as (reached & Hlook & Hres).
  exists reached. split.
  - intros p. unfold bucket.
    destruct res; simpl; rewrite Hlook; by case_decide.
  - destruct res as [e |]; simpl; [done | by split].
Qed.

(** A call of [subscribe] that returns. *)
Lemma subscribe_returned `{DraftEngine} (w : world) (u : callback) (r : nat)
  (name : option string) (content : list string) (d : disposer) :
  sets w !! r = Some content →
  NoDup content →
  snd (subscribe u (Some r) name w) = Normal d →
  let sub := {| sub_id := objects w; update := u; name := name |} in
  d = DisposePaths sub content
  ∧ ∀ p, bucket (fst (subscribe u (Some r) name w)) p
         = if decide (p ∈ content) then bucket w p ++ [sub] else bucket w p.
Proof.
  intros Hr Hnd Hd sub.
  destruct (subscribe_reached w u r name) as (reached & Hb & Hres).
  { by rewrite Hr. }
  rewrite Hd, Hr in Hres. simpl in Hres. destruct Hres as [-> ->].
  done.
Qed.

(** A call of [subscribe] with paths none of which is named like a
    member of [Object.prototype] returns. *)
Lemma subscribe_ordinary `{DraftEngine} (w : world) (u : callback) (r : nat)
  (name : option string) :
  NoDup (default [] (sets w !! r)) →
  ordinary (default [] (sets w !! r)) →
  ∃ d, snd (subscribe u (Some r) name w) = Normal d.
Proof.
  intros Hnd Hord.
  destruct (subscribe_reached w u r name Hnd) as (reached & _ & Hres).
  destruct (snd (subscribe u (Some r) name w)) as [d | e]; [by exists d |].
  destruct Hres as (_ & q & rest & Hc & _ & Hq).
  unfold ordinary in Hord. rewrite Hc, Forall_app, Forall_cons in Hord.
  by destruct Hord as (_ & Hout & _).
Qed.

Lemma remove_listener_lookup (sub : subscription)
  (pl : gmap string (list subscription)) (p q : string) :
  remove_listener sub pl p !! q
  = if decide (p = q)
    then (λ b, splice1 (indexOf (same_subscription sub) b) b) <$> pl !! q
    else pl !! q.
Proof.
  unfold remove_listener. rewrite lookup_alter.
  case_decide; by subst.
Qed.

Lemma remove_listeners_lookup (sub : subscription) (ps : list string) :
  ∀ (pl : gmap string (list subscription)) (q : string),
    NoDup ps →
    fold_left (remove_listener sub) ps pl !! q
    = if decide (q ∈ ps)
      then (λ b, splice1 (indexOf (same_subscription sub) b) b) <$> pl !! q
      else pl !! q.
Proof.
  induction ps as [| p ps IH]; intros pl q Hnd; simpl; [done |].
  apply NoDup_cons in Hnd as [Hp Hnd].
  rewrite IH, remove_listener_lookup by done.
  destruct (decide (p = q)) as [<- | Hpq].
  - rewrite (decide_True (P := p ∈ p :: ps)) by left.
    by rewrite (decide_False (P := p ∈ ps)).
  - destruct (decide (q ∈ ps)) as [Hq | Hq].
    + by rewrite (decide_True (P := q ∈ p :: ps)) by (by right).
    + rewrite (decide_False (P := q ∈ p :: ps)); [done |].
      rewrite elem_of_cons. intros [Heq | Hin]; [by apply Hpq | by apply Hq].
Qed.

Lemma filter_all {A} (P : A → Prop) `{!∀ x, Decision (P x)} (l : list A) :
  Forall P l → filter P l = l.
Proof.
  induction 1 as [| x l Hx _ IH]; [done |].
  by rewrite filter_cons_True, IH.
Qed.

Lemma splice_present_subscription (r : subscription)
  (b : list subscription) :
  NoDup (map sub_id b) → r ∈ b →
  splice1 (indexOf (same_subscription r) b) b = filter (λ s, s ≠ r) b.
Proof.
  intros Hnd Hr.
  apply list_elem_of_split in Hr as (l1 & l2 & ->).
  rewrite map_app, map_cons in Hnd.
  apply NoDup_app in Hnd as (_ & Hl1 & Hnd).
  apply NoDup_cons in Hnd as [Hl2 _].
  assert (Forall (λ x, sub_id x ≠ sub_id r) l1) as Hl1'.
  { apply Forall_forall. intros x Hx Heq.
    apply (Hl1 (sub_id x)); [by apply list_elem_of_fmap_2 |].
    rewrite Heq. left. }
  assert (Forall (λ x, sub_id x ≠ sub_id r) l2) as Hl2'.
  { apply Forall_forall. intros x Hx Heq. apply Hl2.
    rewrite <- Heq. by apply list_elem_of_fmap_2. }
  rewrite indexOf_first by done. rewrite splice1_at.
  rewrite filter_app, filter_cons_False by (intros Hne; by apply Hne).
  f_equal; symmetry; apply filter_all;
    (eapply Forall_impl; [eassumption |]); simpl; by intros x Hx ->.
Qed.

(** What a disposer does to a bucket. *)
Lemma dispose_bucket `{DraftEngine} (sub : subscription)
  (currentPaths : list string) (w : world) (p : string) :
  NoDup currentPaths →
  bucket (dispose (DisposePaths sub currentPaths) w) p
  = if decide (p ∈ currentPaths)
    then splice1 (indexOf (same_subscription sub) (bucket w p)) (bucket w p)
    else bucket w p.
Proof.
  intros Hnd. unfold bucket at 1. simpl.
  rewrite remove_listeners_lookup by done.
  case_decide; [| done]. unfold bucket.
  by destruct (pathListeners w !! p).
Qed.

Lemma dispose_present_buckets `{DraftEngine} (sub : subscription)
  (currentPaths : list string) (w : world) :
  NoDup currentPaths →
  (∀ p, NoDup (map sub_id (bucket w p))) →
  (∀ p, p ∈ currentPaths → sub ∈ bucket w p) →
  ∀ p,
    bucket (dispose (DisposePaths sub currentPaths) w) p
    = if decide (p ∈ currentPaths)
      then filter (λ s, s ≠ sub) (bucket w p)
      else bucket w p.
Proof.
  intros Hnd Hids Hin p. rewrite dispose_bucket by done.
  case_decide as Hp; [| done].
  by apply splice_present_subscription; [| apply Hin].
Qed.

Lemma subscribe_objects `{DraftEngine} (w : world) (u : callback) (r : nat)
  (name : option string) :
  objects (fst (subscribe u (Some r) name w)) = S (objects w)
  ∧ sets (fst (subscribe u (Some r) name w)) = sets w.
Proof.
  unfold subscribe.
  by destruct (forEach _ _ _) as [pl [e |]].
Qed.

(** C10. [subscribe] copies the paths of the caller's set when it is
    called, and the disposer keeps that copy. A subscription is made
    with a set holding [content]; the caller then changes the set to
    [content'] and subscribes again with the same set object. The first
    subscription is at the end of the buckets of [content] and the
    second at the end of those of [content']; the first disposer is the
    one for [content], and calling it takes the first subscription, and
    nothing else, out of the buckets of [content], although the set now
    holds [content'] and the subscription is no longer the last of its
    buckets; the second disposer then leaves every bucket as it was
    before the two calls. In any later state of the store and of the
    caller's sets in which the subscription is still in its buckets, the
    first disposer removes it from the buckets of [content] and leaves
    the others alone. *)
Theorem subscribe_captures_paths `{DraftEngine} (w : world)
  (u u' : callback) (r : nat) (name name' : option string)
  (content content' : list string) (d d' : disposer) :
  allocated w →
  sets w !! r = Some content →
  NoDup content →
  NoDup content' →
  let sub := {| sub_id := objects w; update := u; name := name |} in
  let sub' := {| sub_id := S (objects w); update := u'; name := name' |} in
  let w1 := fst (subscribe u (Some r) name w) in
  let w2 := with_sets (<[r := content']> (sets w1)) w1 in
  let w3 := fst (subscribe u' (Some r) name' w2) in
  snd (subscribe u (Some r) name w) = Normal d →
  snd (subscribe u' (Some r) name' w2) = Normal d' →
  d = DisposePaths sub content
  ∧ d' = DisposePaths sub' content'
  ∧ (∀ p, bucket w3 p
          = bucket w p
              ++ (if decide (p ∈ content) then [sub] else [])
              ++ (if decide (p ∈ content') then [sub'] else []))
  ∧ (∀ p, bucket (dispose d w3) p
          = bucket w p ++ (if decide (p ∈ content') then [sub'] else []))
  ∧ (∀ p, bucket (dispose d' (dispose d w3)) p = bucket w p)
  ∧ (∀ w' : world,
       (∀ p, NoDup (map sub_id (bucket w' p))) →
       (∀ p, p ∈ content → sub ∈ bucket w' p) →
       ∀ p, bucket (dispose d w') p
            = if decide (p ∈ content)
              then filter (λ s, s ≠ sub) (bucket w' p)
              else bucket w' p).
Proof.
  intros Hw Hr Hnd Hnd' sub sub' w1 w2 w3 Hd Hd'.
  destruct (subscribe_returned w u r name content d Hr Hnd Hd) as [-> Hw1].
  fold sub w1 in Hw1.
  destruct (subscribe_objects w u r name) as [Hobj _]. fold w1 in Hobj.
  assert (sets w2 !! r = Some content') as Hr2.
  { subst w2. simpl. by rewrite lookup_insert_eq. }
  destruct (subscribe_returned w2 u' r name' content' d' Hr2 Hnd' Hd')
    as [-> Hw3].
  fold w3 in Hw3. simpl objects in Hw3. rewrite Hobj in Hw3. fold sub' in Hw3.
  change (bucket w2) with (bucket w1) in Hw3.
  assert (∀ p, Forall (λ x, sub_id x ≠ sub_id sub) (bucket w p)) as Hfresh.
  { intros p. apply Forall_forall. intros s Hs. apply Hw in Hs. simpl. lia. }
  assert (∀ p, Forall (λ x, sub_id x ≠ sub_id sub') (bucket w p)) as Hfresh'.
  { intros p. apply Forall_forall. intros s Hs. apply Hw in Hs. simpl. lia. }
  assert (∀ p, bucket w3 p
               = bucket w p
                   ++ (if decide (p ∈ content) then [sub] else [])
                   ++ (if decide (p ∈ content') then [sub'] else [])) as Hb3.
  { intros p. rewrite Hw3, Hw1.
    destruct (decide (p ∈ content)), (decide (p ∈ content')); simpl;
      by rewrite ?app_nil_r, <- ?app_assoc. }
  assert (∀ p, bucket (dispose (DisposePaths sub content) w3) p
               = bucket w p ++ (if decide (p ∈ content') then [sub'] else []))
    as Hb4.
  { intros p. rewrite dispose_bucket, Hb3 by done.
    destruct (decide (p ∈ content)); [| done]. simpl.
    rewrite indexOf_first; [apply splice1_at | apply Hfresh | done]. }
  split_and!; [done | simpl; by rewrite Hobj | done | done | |].
  - intros p. simpl objects. rewrite Hobj. fold sub'.
    rewrite dispose_bucket, Hb4 by done.
    destruct (decide (p ∈ content')); [| by rewrite app_nil_r].
    rewrite indexOf_first; [| apply Hfresh' | done].
    by rewrite splice1_at, app_nil_r.
  - intros w' Hids Hin. by apply dispose_present_buckets.
Qed.

(** The set at reference 0 holds "x" when the first subscription is made
    and "x" and "y" when the second is: the first disposer takes the
    first subscription out of the bucket of "x" only, where it is no
    longer the last. *)
Lemma subscribe_captures_paths_witness :
  let a := {| sub_id := 0; update := 7; name := None |} in
  let b := {| sub_id := 1; update := 8; name := None |} in
  let w1 := fst (subscribe 7 (Some 0) None store_x) in
  let w2 := with_sets (<[0 := ["x"; "y"]]> (sets w1)) w1 in
  let w3 := fst (subscribe 8 (Some 0) None w2) in
  bucket w3 "x" = [a; b]
  ∧ bucket w3 "y" = [b]
  ∧ bucket (dispose (DisposePaths a ["x"]) w3) "x" = [b]
  ∧ bucket (dispose (DisposePaths a ["x"]) w3) "y" = [b].
Proof.
  intros a b w1 w2 w3.
  destruct (@subscribe_captures_paths journal store_x 7 8 0 None None
              ["x"] ["x"; "y"]
              (DisposePaths a ["x"]) (DisposePaths b ["x"; "y"]))
    as (_ & _ & Hb3 & Hb4 & _).
  - intros p s Hs. unfold bucket in Hs. simpl in Hs.
    rewrite lookup_empty in Hs. by apply elem_of_nil in Hs.
  - reflexivity.
  - apply NoDup_singleton.
  - compute_done.
  - reflexivity.
  - reflexivity.
  - split_and!; [apply (Hb3 "x") | apply (Hb3 "y") | apply (Hb4 "x")
                 | apply (Hb4 "y")].
Defined.

(** C6. A disposer called a second time is not a no-op. With two
    subscriptions on "x", the first call of the first one's disposer
    leaves the second subscription alone in the bucket, and the second
    call removes it: the subscription is absent, [indexOf] answers -1 and
    [splice(-1, 1)] takes the last element of the array. The same happens
    in the global list. *)
Theorem second_disposal_removes_another :
  let a := {| sub_id := 0; update := 7; name := None |} in
  let b := {| sub_id := 1; update := 8; name := None |} in
  let dispose_a := DisposePaths a ["x"] in
  let dispose_g := DisposeGlobal 5 in
  let w1 := fst (subscribe 7 (Some 0) None store_x) in
  let w2 := fst (subscribe 8 (Some 0) None w1) in
  let w3 := fst (subscribe 5 None None w2) in
  let w4 := fst (subscribe 6 None None w3) in
  snd (subscribe 7 (Some 0) None store_x) = Normal dispose_a
  ∧ snd (subscribe 5 None None w2) = Normal dispose_g
  ∧ bucket w4 "x" = [a; b]
  ∧ bucket (dispose dispose_a w4) "x" = [b]
  ∧ bucket (dispose dispose_a (dispose dispose_a w4)) "x" = []
  ∧ globalListeners w4 = [5; 6]
  ∧ globalListeners (dispose dispose_g w4) = [6]
  ∧ globalListeners (dispose dispose_g (dispose dispose_g w4)) = [].
Proof. vm_compute. done. Qed.

(** ** Notification *)

(** What every turn of a [forEach] keeps, the whole of it keeps, whether
    it ends or throws. *)
Lemma forEach_keeps {A S} (f : S → A → S * option error)
  (R : S → S → Prop) :
  (∀ s, R s s) →
  (∀ s1 s2 s3, R s1 s2 → R s2 s3 → R s1 s3) →
  (∀ s x, R s (fst (f s x))) →
  ∀ (l : list A) (s : S), R s (fst (forEach f l s)).
Proof.
  intros Hrefl Htrans Hf l. induction l as [| x l IH]; intros s; simpl.
  - apply Hrefl.
  - pose proof (Hf s x) as Hx.
    destruct (f s x) as [s' [e |]]; [done |].
    eapply Htrans; [exact Hx | apply IH].
Qed.

(** A [forEach] none of whose turns throws does not throw. *)
Lemma forEach_normal {A S} (f : S → A → S * option error) (P : A → Prop) :
  (∀ s x, P x → snd (f s x) = None) →
  ∀ (l : list A) (s : S), Forall P l → snd (forEach f l s) = None.
Proof.
  intros Hf l. induction l as [| x l IH]; intros s Hl; simpl; [done |].
  apply Forall_cons in Hl as [Hx Hl]. specialize (Hf s x Hx).
  destruct (f s x) as [s' [e |]]; [done | by apply IH].
Qed.

Lemma forEach_app {A S} (f : S → A → S * option error) (l1 l2 : list A) :
  ∀ s : S,
    forEach f (l1 ++ l2) s
    = match forEach f l1 s with
      | (s', None) => forEach f l2 s'
      | (s', Some e) => (s', Some e)
      end.
Proof.
  induction l1 as [| x l1 IH]; intros s; simpl; [done |].
  destruct (f s x) as [s' [e |]]; [done | apply IH].
Qed.

Section Notification.
Context `{DraftEngine} `{Callbacks}.

Lemma logs_nil (w : world) : logs [] w = w.
Proof. destruct w. unfold logs. simpl. by rewrite app_nil_r. Qed.

Lemma logs_logs (es es' : list event) (w : world) :
  logs es' (logs es w) = logs (es ++ es') w.
Proof. unfold logs. simpl. by rewrite app_assoc. Qed.

Lemma untouched_refl (w : world) : untouched w w.
Proof. by repeat split. Qed.

Lemma untouched_trans (w1 w2 w3 : world) :
  untouched w1 w2 → untouched w2 w3 → untouched w1 w3.
Proof.
  intros (? & ? & ? & ? & ? & ?) (? & ? & ? & ? & ? & ?).
  repeat split; congruence.
Qed.

Lemma dispose_untouched (d : disposer) (w : world) :
  untouched w (dispose d w).
Proof. destruct d; by repeat split. Qed.

Lemma call_untouched (u : callback) (w : world) : untouched w (call u w).
Proof.
  unfold call. generalize (effect u). intros ds. revert w.
  induction ds as [| d ds IH]; intros w; simpl; [apply untouched_refl |].
  eapply untouched_trans; [apply (dispose_untouched d) | apply IH].
Qed.

Lemma log_update_untouched (e : event) (w : world) :
  (∀ n p, e ≠ Mutations n p) → untouched w (log e w).
Proof.
  intros He. repeat split. simpl. unfold commits.
  rewrite omap_app. simpl.
  destruct e; [by destruct (He actionName paths) | |]; by rewrite app_nil_r.
Qed.

Lemma forEach_bucket_untouched (p : string) (n : nat) :
  ∀ (k : nat) (w : world), untouched w (forEach_bucket p n k w).
Proof.
  induction n as [| n IH]; intros k w; simpl; [apply untouched_refl |].
  eapply untouched_trans; [| apply IH].
  destruct (bucket w p !! k) as [s |]; [| apply untouched_refl].
  eapply untouched_trans; [| apply call_untouched].
  by apply log_update_untouched.
Qed.

Lemma forEach_global_untouched (n : nat) :
  ∀ (k : nat) (w : world), untouched w (forEach_global n k w).
Proof.
  induction n as [| n IH]; intros k w; simpl; [apply untouched_refl |].
  eapply untouched_trans; [| apply IH].
  destruct (globalListeners w !! k) as [u |]; [| apply untouched_refl].
  eapply untouched_trans; [| apply call_untouched].
  by apply log_update_untouched.
Qed.

Lemma notify_path_untouched (w : world) (p : string) :
  untouched w (fst (notify_path w p)).
Proof.
  unfold notify_path. destruct (get (pathListeners w) p); simpl;
    [apply forEach_bucket_untouched | apply untouched_refl..].
Qed.

Lemma updateListeners_untouched (paths : list string) (w : world) :
  untouched w (fst (updateListeners paths w)).
Proof.
  unfold updateListeners.
  pose proof (forEach_keeps notify_path untouched untouched_refl
                untouched_trans notify_path_untouched paths w) as Hp.
  destruct (forEach notify_path paths w) as [w' [e |]]; [done |].
  eapply untouched_trans; [exact Hp | apply forEach_global_untouched].
Qed.

(** A path that is not named like a member of [Object.prototype] is
    notified without an exception. *)
Lemma notify_path_normal (w : world) (p : string) :
  p ∉ prototype_members → snd (notify_path w p) = None.
Proof.
  intros Hp. unfold notify_path.
  pose proof (get_ordinary (pathListeners w) p Hp) as Hg.
  by destruct (get (pathListeners w) p).
Qed.

Lemma updateListeners_normal (paths : list string) (w : world) :
  ordinary paths → snd (updateListeners paths w) = None.
Proof.
  intros Hp. unfold updateListeners.
  pose proof (forEach_normal notify_path _
                (λ w p, notify_path_normal w p) paths w Hp) as Hn.
  by destruct (forEach notify_path paths w) as [w' [e |]].
Qed.

Lemma flushMutations_normal (d : draft) (name : string) (w : world) :
  ordinary (dirty_paths (snd (finishDraft d))) →
  snd (flushMutations d name w) = None.
Proof.
  intros Hp. unfold flushMutations, getUpdate.
  destruct (finishDraft d) as [newState ops].
  by apply updateListeners_normal.
Qed.

(** A commit, whether its notification ends or throws: the new snapshot
    is in place, one commit is added to the trace, the timers are as
    they were. *)
Lemma flushMutations_commit (d : draft) (name : string) (w : world) :
  currentState (fst (flushMutations d name w)) = fst (finishDraft d)
  ∧ timers (fst (flushMutations d name w)) = timers w
  ∧ next_timer (fst (flushMutations d name w)) = next_timer w
  ∧ commits (trace (fst (flushMutations d name w)))
    = commits (trace w)
        ++ [(name, dirty_paths (snd (finishDraft d)))].
Proof.
  unfold flushMutations, getUpdate.
  destruct (finishDraft d) as [newState ops]. simpl.
  destruct (updateListeners_untouched (dirty_paths ops)
              (log (Mutations name (dirty_paths ops))
                 (with_state newState w)))
    as (-> & -> & -> & _ & _ & ->).
  split_and!; try done.
  simpl. unfold commits. by rewrite omap_app.
Qed.

End Notification.

Section Dispatch.
Context `{DraftEngine} `{Callbacks}.

Lemma call_quiet (u : callback) (w : world) :
  effect u = [] → call u w = w.
Proof. intros Hu. unfold call. by rewrite Hu. Qed.

Lemma take_drop_step {A} (l : list A) (n k : nat) (x : A) :
  l !! k = Some x → take (S n) (drop k l) = x :: take n (drop (S k) l).
Proof. intros Hk. by rewrite (drop_S l x k Hk). Qed.

Lemma take_drop_past {A} (l : list A) (n k : nat) :
  l !! k = None → take n (drop k l) = [].
Proof.
  intros Hk. apply lookup_ge_None in Hk.
  rewrite drop_ge by done. by destruct n.
Qed.

(** Over a stretch of a bucket whose update functions leave the registry
    alone, [forEach] calls the entries one after the other. *)
Lemma forEach_bucket_quiet (p : string) (n : nat) :
  ∀ (k : nat) (w : world),
    (∀ j s, k ≤ j < k + n → bucket w p !! j = Some s →
            effect (update s) = []) →
    forEach_bucket p n k w
    = logs (map (λ s, Render s p) (take n (drop k (bucket w p)))) w.
Proof.
  induction n as [| n IH]; intros k w Hq; simpl forEach_bucket.
  - by rewrite logs_nil.
  - destruct (bucket w p !! k) as [s |] eqn:Hk.
    + rewrite call_quiet by (apply (Hq k); [lia | done]).
      rewrite IH.
      * change (bucket (log (Render s p) w) p) with (bucket w p).
        rewrite (take_drop_step _ n k s Hk).
        change (log (Render s p) w) with (logs [Render s p] w).
        by rewrite logs_logs.
      * intros j s' Hj. apply Hq. lia.
    + rewrite IH by (intros j s' Hj; apply Hq; lia).
      rewrite (take_drop_past _ (S n) k Hk).
      by rewrite (take_drop_past _ n (S k))
        by (apply lookup_ge_None; apply lookup_ge_None in Hk; lia).
Qed.



Lemma notify_path_quiet (p : string) (w : world) :
  get (pathListeners w) p ≠ Inherited →
  (∀ s, s ∈ bucket w p → effect (update s) = []) →
  notify_path w p = (logs (map (λ s, Render s p) (bucket w p)) w, None).
Proof.
  intros Hg Hq. unfold notify_path, get in *. unfold bucket in *.
  destruct (pathListeners w !! p) as [b |] eqn:Hb.
  - rewrite forEach_bucket_quiet.
    + unfold bucket. rewrite Hb. simpl. by rewrite drop_0, firstn_all.
    + intros j s _ Hs. unfold bucket in Hs. rewrite Hb in Hs.
      apply Hq. by eapply list_elem_of_lookup_2.
  - case_decide; [done |]. simpl. by rewrite logs_nil.
Qed.

Lemma notify_paths_quiet (paths : list string) :
  ∀ w : world,
    ordinary paths →
    (∀ p s, s ∈ bucket w p → effect (update s) = []) →
    forEach notify_path paths w
    = (logs (concat (map (λ p, map (λ s, Render s p) (bucket w p)) paths)) w,
       None).
Proof.
  induction paths as [| p paths IH]; intros w Hp Hq; simpl.
  - by rewrite logs_nil.
  - apply Forall_cons in Hp as [Hp Hps].
    rewrite notify_path_quiet; [| by apply get_ordinary | apply Hq].
    rewrite IH; [| done | apply Hq].
    by rewrite logs_logs.
Qed.

Lemma call_trace (u : callback) (w : world) : trace (call u w) = trace w.
Proof.
  unfold call. generalize (effect u). intros ds. revert w.
  induction ds as [| d ds IH]; intros w; simpl; [done |].
  rewrite IH. by destruct d.
Qed.


Lemma forEach_global_trace (n : nat) :
  ∀ (k : nat) (w : world),
    ∃ gs, trace (forEach_global n k w) = trace w ++ gs
          ∧ Forall (λ e, ∃ u, e = Global u) gs.
Proof.
  induction n as [| n IH]; intros k w; simpl.
  - exists []. by rewrite app_nil_r.
  - destruct (globalListeners w !! k) as [u |].
    + destruct (IH (S k) (call u (log (Global u) w))) as (gs & -> & Hgs).
      exists (Global u :: gs). rewrite call_trace. simpl.
      rewrite <- app_assoc. split; [done |].
      apply Forall_cons. split; [by exists u | done].
    + apply IH.
Qed.





(** ** Removal during dispatch *)







End Dispatch.





(** ** The wrapped action *)

Section ActionFacts.
Context `{DraftEngine} `{Callbacks}.

Lemma with_timers_id (w : world) :
  with_timers (timers w) (next_timer w) w = w.
Proof. by destruct w. Qed.

Lemma run_steps_app (s1 s2 : list step) :
  ∀ iw : invocation * world,
    run_steps (s1 ++ s2) iw
    = match run_steps s1 iw with
      | (iw', None) => run_steps s2 iw'
      | (iw', Some e) => (iw', Some e)
      end.
Proof.
  induction s1 as [| s s1 IH]; intros iw; simpl; [done |].
  destruct (run_step s iw) as [iw' [e |]]; [done | apply IH].
Qed.

Lemma clearTimeout_pending (h : nat) (w : world) :
  timers w = [h] → clearTimeout (Some h) w = with_timers [] (next_timer w) w.
Proof.
  intros Hp. unfold clearTimeout. rewrite Hp.
  by rewrite filter_cons_False by (intros Hne; by apply Hne).
Qed.

Lemma clearTimeout_none (t : option nat) (w : world) :
  timers w = [] → clearTimeout t w = w.
Proof.
  intros Hp. unfold clearTimeout. destruct t as [h |]; [| done].
  assert (filter (λ x, x ≠ h) (timers w) = timers w) as ->
    by (by rewrite Hp).
  apply with_timers_id.
Qed.

Lemma clearTimeout_armed (i : invocation) (w : world) (d : draft) :
  armed (i, w) d →
  currentDraft i = Some d
  ∧ finished i = false
  ∧ clearTimeout (timeout i) w = with_timers [] (next_timer w) w.
Proof.
  intros (h & Hd & Ht & Hp & _ & Hf). simpl in *.
  by rewrite Ht, (clearTimeout_pending h w Hp).
Qed.

(** An access with a draft open: the pending timer is replaced. *)
Lemma access_armed (f : draft → draft) (i : invocation) (w : world)
  (d : draft) :
  armed (i, w) d →
  ∃ i' h,
    run_step (Access f) (i, w)
    = (i', with_timers [h] (S (next_timer w)) w, None)
    ∧ armed (i', with_timers [h] (S (next_timer w)) w) (f d)
    ∧ generation i' = generation i.
Proof.
  intros (h & Hd & Ht & Hp & Hlt & Hf). simpl in *.
  exists {| currentDraft := Some (f d); timeout := Some (next_timer w);
            generation := generation i; finished := finished i |},
    (next_timer w).
  split_and!.
  - unfold run_step, configureUpdate. rewrite Hd, Ht.
    rewrite (clearTimeout_pending h w Hp). simpl.
    rewrite Hf. unfold with_draft. simpl. by rewrite Hd.
  - exists (next_timer w). simpl. split_and!; try done. lia.
  - done.
Qed.

(** The first access: a draft of the current state is opened. *)
Lemma access_idle (f : draft → draft) (i : invocation) (w : world) :
  idle (i, w) →
  ∃ i' h,
    run_step (Access f) (i, w)
    = (i', with_timers [h] (S (next_timer w)) w, None)
    ∧ armed (i', with_timers [h] (S (next_timer w)) w)
        (f (createDraft (currentState w)))
    ∧ generation i' = S (generation i).
Proof.
  intros [Hd Hp]. simpl in *.
  exists {| currentDraft := Some (f (createDraft (currentState w)));
            timeout := Some (next_timer w);
            generation := S (generation i); finished := false |},
    (next_timer w).
  split_and!.
  - unfold run_step, configureUpdate. rewrite Hd. simpl.
    rewrite (clearTimeout_none _ w Hp). simpl. by rewrite Hp.
  - exists (next_timer w). simpl. split_and!; try done. lia.
  - done.
Qed.

Lemma accesses_armed (fs : list (draft → draft)) :
  ∀ (i : invocation) (w : world) (d : draft),
    armed (i, w) d →
    ∃ i' h,
      run_steps (map Access fs) (i, w)
      = (i', with_timers h (next_timer w + length fs) w, None)
      ∧ armed (i', with_timers h (next_timer w + length fs) w)
          (apply_all fs d)
      ∧ generation i' = generation i.
Proof.
  induction fs as [| f fs IH]; intros i w d Harmed.
  - exists i, (timers w). simpl. rewrite Nat.add_0_r, with_timers_id. done.
  - destruct (access_armed f i w d Harmed) as (i1 & h1 & Hrun & Harmed1 & Hg1).
    destruct (IH _ _ _ Harmed1) as (i2 & h2 & Hrun2 & Harmed2 & Hg2).
    exists i2, h2. cbn [map run_steps]. rewrite Hrun, Hrun2. simpl in *.
    replace (next_timer w + S (length fs)) with (S (next_timer w + length fs))
      by lia.
    split_and!; [done | done | congruence].
Qed.

Lemma accesses_idle (f : draft → draft) (fs : list (draft → draft))
  (i : invocation) (w : world) :
  idle (i, w) →
  ∃ i' h,
    run_steps (map Access (f :: fs)) (i, w)
    = (i', with_timers h (next_timer w + length (f :: fs)) w, None)
    ∧ armed (i', with_timers h (next_timer w + length (f :: fs)) w)
        (apply_all (f :: fs) (createDraft (currentState w)))
    ∧ generation i' = S (generation i).
Proof.
  intros Hidle.
  destruct (access_idle f i w Hidle) as (i1 & h1 & Hrun & Harmed1 & Hg1).
  destruct (accesses_armed fs _ _ _ Harmed1) as (i2 & h2 & Hrun2 & Harmed2 & Hg2).
  exists i2, h2. cbn [map run_steps]. rewrite Hrun, Hrun2. simpl in *.
  replace (next_timer w + S (length fs)) with (S (next_timer w + length fs))
    by lia.
  split_and!; [done | done | congruence].
Qed.

(** *** Committing a draft that has not been finished *)

Lemma flush_world (name : string) (d : draft) (i : invocation) (w : world) :
  finished i = false →
  snd (fst (flush name d (i, w))) = fst (flushMutations d name w)
  ∧ snd (flush name d (i, w)) = snd (flushMutations d name w).
Proof.
  intros Hf. unfold flush. rewrite Hf.
  by destruct (flushMutations d name w) as [w' [e |]].
Qed.

Lemma flush_normal (name : string) (d : draft) (i : invocation) (w : world) :
  finished i = false →
  snd (flushMutations d name w) = None →
  flush name d (i, w) = (with_draft None i, fst (flushMutations d name w), None).
Proof.
  intros Hf Hn. unfold flush. rewrite Hf.
  destruct (flushMutations d name w) as [w' [e |]]; [done | done].
Qed.

Lemma flushMutations_timers (d : draft) (name : string) (w : world) :
  timers (fst (flushMutations d name w)) = timers w.
Proof. apply flushMutations_commit. Qed.

(** The pending timer fires: the open draft is given to
    [flushMutations]. *)
Lemma run_timers_armed (name : string) (i : invocation) (w : world)
  (d : draft) :
  armed (i, w) d →
  run_timers name (i, w)
  = fst (flush name d (i, with_timers [] (next_timer w) w)).
Proof.
  intros (h & Hd & Ht & Hp & Hlt & Hf). simpl in *.
  unfold run_timers. simpl snd. rewrite Hp. simpl fold_left.
  unfold fire. cbv beta iota.
  rewrite decide_True by (rewrite Hp; left).
  rewrite Hd, Hp.
  by rewrite filter_cons_False by (intros Hne; by apply Hne).
Qed.

Lemma run_timers_idle (name : string) (i : invocation) (w : world) :
  timers w = [] → run_timers name (i, w) = (i, w).
Proof. intros Hp. unfold run_timers. simpl snd. by rewrite Hp. Qed.

(** The promise is fulfilled with a draft open: the timer is cancelled
    and the draft given to [flushMutations]. *)
Lemma on_fulfilled_armed (name : string) (i : invocation) (w : world)
  (d : draft) :
  armed (i, w) d →
  on_fulfilled name (i, w)
  = flush name d (i, with_timers [] (next_timer w) w).
Proof.
  intros (h & Hd & Ht & Hp & Hlt & Hf). simpl in *.
  unfold on_fulfilled. rewrite Ht, (clearTimeout_pending h w Hp).
  by rewrite Hd.
Qed.

Lemma on_fulfilled_idle (name : string) (i : invocation) (w : world) :
  idle (i, w) → on_fulfilled name (i, w) = (i, w, None).
Proof.
  intros [Hd Hp]. simpl in *. unfold on_fulfilled.
  by rewrite (clearTimeout_none _ w Hp), Hd.
Qed.

Lemma flushed_idle (name : string) (i : invocation) (w : world) (d : draft) :
  timers w = [] → idle (with_draft None i, fst (flushMutations d name w)).
Proof.
  intros Hp. split; [done |]. simpl.
  destruct (flushMutations_commit d name w) as (_ & -> & _). done.
Qed.

Lemma start_idle (w : world) : timers w = [] → idle (initial, w).
Proof. by split. Qed.

(** *** While the action function runs *)

Lemma run_step_coherent (s : step) (i : invocation) (w : world) :
  coherent (i, w) → coherent (fst (run_step s (i, w))).
Proof.
  intros Hc. destruct s as [f | g f | e].
  - right. destruct Hc as [Hidle | [d Harmed]].
    + destruct (access_idle f i w Hidle) as (i' & h & -> & Ha & _). eauto.
    + destruct (access_armed f i w d Harmed) as (i' & h & -> & Ha & _). eauto.
  - simpl. destruct (currentDraft i) as [d |] eqn:Hd; [| done].
    case_decide; [| done].
    destruct Hc as [[Hnone _] | [d' (h & Hd' & Ht & Hp & Hlt & Hf)]];
      simpl in *; [congruence |].
    rewrite Hf. simpl. right. exists (f d), h. by split_and!.
  - done.
Qed.

Lemma run_steps_coherent (steps : list step) :
  ∀ iw : invocation * world,
    coherent iw → coherent (fst (run_steps steps iw)).
Proof.
  induction steps as [| s steps IH]; intros [i w] Hc; simpl; [done |].
  pose proof (run_step_coherent s i w Hc) as Hs.
  destruct (run_step s (i, w)) as [iw' [e |]]; [done | by apply IH].
Qed.

(** Steps change nothing of the world but its timers. *)
Lemma run_step_timers_only (s : step) (i : invocation) (w : world) :
  coherent (i, w) →
  snd (fst (run_step s (i, w)))
  = with_timers (timers (snd (fst (run_step s (i, w)))))
      (next_timer (snd (fst (run_step s (i, w))))) w.
Proof.
  intros Hc. destruct s as [f | g f | e].
  - destruct Hc as [Hidle | [d Harmed]].
    + by destruct (access_idle f i w Hidle) as (i' & h & -> & _).
    + by destruct (access_armed f i w d Harmed) as (i' & h & -> & _).
  - simpl. destruct (currentDraft i); [case_decide; [destruct (finished i) |] |];
      simpl; by rewrite with_timers_id.
  - simpl. by rewrite with_timers_id.
Qed.



Lemma run_steps_timers_only (steps : list step) :
  ∀ (i : invocation) (w : world),
    coherent (i, w) →
    snd (fst (run_steps steps (i, w)))
    = with_timers (timers (snd (fst (run_steps steps (i, w)))))
        (next_timer (snd (fst (run_steps steps (i, w))))) w.
Proof.
  induction steps as [| s steps IH]; intros i w Hc; simpl.
  - by rewrite with_timers_id.
  - pose proof (run_step_timers_only s i w Hc) as Hs.
    pose proof (run_step_coherent s i w Hc) as Hc'.
    destruct (run_step s (i, w)) as [[i' w'] [e |]]; simpl in *; [done |].
    rewrite (IH i' w' Hc') at 1. by rewrite Hs.
Qed.



(** What the caller of an action that returned a promise ends up with. *)
Lemma run_action_async (name : string) (b : body) (w w0 : world)
  (i : invocation) (p : promise) :
  call_action name b w = (i, w0, Awaitable p) →
  run_action name b w
  = {| after := snd (run_timers name (fst (fst (settle name p (i, w0)))));
       caller := Settles (snd (fst (settle name p (i, w0))));
       chained := Some (snd (settle name p (i, w0))) |}.
Proof.
  intros Hcall. unfold run_action. rewrite Hcall.
  by destruct (settle name p (i, w0)) as [[iw o] c].
Qed.

(** The promise of an action function that has run to its end is
    fulfilled, and the function given to [.then] runs. *)
Lemma settle_fulfilled (name : string) (rest : list (resume * list step))
  (iw iw1 : invocation * world) :
  continue name rest iw = (iw1, Fulfilled) →
  settle name (Suspended rest) iw
  = (fst (on_fulfilled name iw1), Fulfilled,
     match snd (on_fulfilled name iw1) with
     | None => Fulfilled
     | Some e => Rejected (on_rejected name e)
     end).
Proof.
  intros Hc. unfold settle. rewrite Hc.
  by destruct (on_fulfilled name iw1) as [iw2 [e |]].
Qed.

(** The promise of an action function that has thrown is rejected, and
    only the function given to [.catch] runs. *)
Lemma settle_rejected (name : string) (rest : list (resume * list step))
  (iw iw1 : invocation * world) (e : error) :
  continue name rest iw = (iw1, Rejected e) →
  settle name (Suspended rest) iw
  = (iw1, Rejected e, Rejected (on_rejected name e)).
Proof. intros Hc. unfold settle. by rewrite Hc. Qed.



(** What an [Async] body with accesses before its first suspension leaves
    when the wrapped action returns: the draft open, its timer pending. *)
Lemma call_async_armed (name : string) (f : draft → draft)
  (fs : list (draft → draft)) (rest : list (resume * list step))
  (w : world) :
  timers w = [] →
  ∃ i h,
    call_action name (Async (map Access (f :: fs)) rest) w
    = (i, with_timers [h] (next_timer w + length (f :: fs)) w,
       Awaitable (Suspended rest))
    ∧ armed (i, with_timers [h] (next_timer w + length (f :: fs)) w)
        (apply_all (f :: fs) (createDraft (currentState w)))
    ∧ generation i = 1.
Proof.
  intros Hp.
  destruct (accesses_idle f fs _ w (start_idle w Hp))
    as (i & h & Hrun & Harmed & Hg).
  pose proof Harmed as (h0 & _ & _ & Hh & _). simpl in Hh. subst h.
  exists i, h0. unfold call_action. by rewrite Hrun.
Qed.

(** The timer of an open draft fires and its notification does not
    throw: the draft is committed and none is open. *)
Lemma run_timers_commits (name : string) (i : invocation) (w : world)
  (d : draft) :
  armed (i, w) d →
  ordinary (dirty_paths (snd (finishDraft d))) →
  run_timers name (i, w)
  = (with_draft None i,
     fst (flushMutations d name (with_timers [] (next_timer w) w))).
Proof.
  intros Harmed Hord. rewrite (run_timers_armed name i w d Harmed).
  destruct Harmed as (h & _ & _ & _ & _ & Hf). simpl in Hf.
  by rewrite flush_normal by (try done; by apply flushMutations_normal).
Qed.

(** C3, as the code has it. An action that edits state, awaits a promise
    that lets it resume only after the pending timers have fired, and
    edits state again before finishing, the notification of the first
    commit not throwing. When the wrapped action returns, the draft of
    the first edits is open, its timer is pending and nothing is
    committed. When the action function has run to its end, the timer
    has committed that draft, the later accesses have opened a draft of
    the state committed by then, and the timer of that second draft is
    pending. The function given to [.then] then cancels that timer and
    commits the second draft: there are two commits, and nothing is left
    to happen. *)
Theorem async_action_two_commits (name : string) (f g : draft → draft)
  (fs gs : list (draft → draft)) (w : world) :
  timers w = [] →
  let rest := [(AfterTimers, map Access (g :: gs))] in
  let b := Async (map Access (f :: fs)) rest in
  let d1 := apply_all (f :: fs) (createDraft (currentState w)) in
  let n1 := next_timer w + length (f :: fs) in
  let w1 := fst (flushMutations d1 name (with_timers [] n1 w)) in
  let d2 := apply_all (g :: gs) (createDraft (fst (finishDraft d1))) in
  let n2 := n1 + length (g :: gs) in
  let w2 := fst (flushMutations d2 name (with_timers [] n2 w1)) in
  ordinary (dirty_paths (snd (finishDraft d1))) →
  ∃ i0 h0 i1 h1,
    call_action name b w
    = (i0, with_timers [h0] n1 w, Awaitable (Suspended rest))
    ∧ currentDraft i0 = Some d1
    ∧ continue name rest (i0, with_timers [h0] n1 w)
      = (i1, with_timers [h1] n2 w1, Fulfilled)
    ∧ currentDraft i1 = Some d2
    ∧ commits (trace w1)
      = commits (trace w) ++ [(name, dirty_paths (snd (finishDraft d1)))]
    ∧ snd (fst (on_fulfilled name (i1, with_timers [h1] n2 w1))) = w2
    ∧ timers w2 = []
    ∧ commits (trace w2)
      = commits (trace w)
          ++ [(name, dirty_paths (snd (finishDraft d1)));
              (name, dirty_paths (snd (finishDraft d2)))]
    ∧ currentState w2 = fst (finishDraft d2)
    ∧ caller (run_action name b w) = Settles Fulfilled
    ∧ after (run_action name b w) = w2.
Proof.
  intros Hp rest b d1 n1 w1 d2 n2 w2 Hord.
  destruct (call_async_armed name f fs rest w Hp)
    as (i0 & h0 & Hcall & Harmed1 & _).
  fold d1 n1 b in Hcall, Harmed1.
  pose proof (run_timers_commits name _ _ _ Harmed1 Hord) as Hfire.
  change (fst (flushMutations d1 name _)) with w1 in Hfire.
  destruct (flushMutations_commit d1 name (with_timers [] n1 w))
    as (Hs1 & Ht1 & Hn1 & Hc1).
  fold w1 in Hs1, Ht1, Hn1, Hc1. simpl in Ht1, Hn1, Hc1.
  assert (idle (with_draft None i0, w1)) as Hidle by (by split).
  destruct (accesses_idle g gs _ _ Hidle) as (i1 & h & Hrun2 & Harmed2 & _).
  rewrite Hn1 in Hrun2, Harmed2. rewrite Hs1 in Harmed2.
  fold d2 n2 in Hrun2, Harmed2.
  pose proof Harmed2 as (h1 & Hd2 & _ & Hh & _ & Hf2).
  simpl in Hd2, Hh, Hf2. subst h.
  assert (continue name rest (i0, with_timers [h0] n1 w)
          = (i1, with_timers [h1] n2 w1, Fulfilled)) as Hcont.
  { subst rest. cbn [continue]. by rewrite Hfire, Hrun2. }
  pose proof (on_fulfilled_armed name _ _ _ Harmed2) as Hful.
  change (with_timers [] _ (with_timers [h1] n2 w1))
    with (with_timers [] n2 w1) in Hful.
  destruct (flush_world name d2 i1 (with_timers [] n2 w1) Hf2)
    as [Hfw _].
  fold w2 in Hfw. rewrite <- Hful in Hfw.
  destruct (flushMutations_commit d2 name (with_timers [] n2 w1))
    as (Hs2 & Ht2 & _ & Hc2).
  fold w2 in Hs2, Ht2, Hc2. simpl in Ht2, Hc2.
  exists i0, h0, i1, h1.
  split_and!; try done.
  - by destruct Harmed1 as (? & ? & _).
  - by rewrite Hc2, Hc1, <- app_assoc.
  - rewrite (run_action_async name b w _ _ _ Hcall).
    by rewrite (settle_fulfilled name rest _ _ Hcont).
  - rewrite (run_action_async name b w _ _ _ Hcall).
    rewrite (settle_fulfilled name rest _ _ Hcont). cbn [after fst snd].
    destruct (on_fulfilled name (i1, with_timers [h1] n2 w1))
      as [[i2 w2'] e]. cbn [fst snd] in *. subst w2'.
    by rewrite run_timers_idle.
Qed.


(** C8, as the code has it. When the action function has accessed state
    and then throws, the error reaches the caller unchanged and, at that
    moment, the store is as it was before the call but for the pending
    timer: nothing is committed, nobody is notified. Nothing cancels that
    timer: when it fires, the edits made before the throw are committed
    and notified. *)
Theorem throwing_action_commits_later (name : string) (steps : list step)
  (w w' : world) (i : invocation) (e : error) (d : draft) :
  timers w = [] →
  run_steps steps (initial, w) = (i, w', Some e) →
  currentDraft i = Some d →
  let r := run_action name (Plain steps) w in
  call_action name (Plain steps) w = (i, w', Thrown e)
  ∧ (∃ h, w' = with_timers [h] (next_timer w') w ∧ timeout i = Some h)
  ∧ caller r = Exception e
  ∧ after r = fst (flushMutations d name (with_timers [] (next_timer w') w))
  ∧ currentState (after r) = fst (finishDraft d)
  ∧ commits (trace (after r))
    = commits (trace w) ++ [(name, dirty_paths (snd (finishDraft d)))]
  ∧ (∀ fs more, steps = map Access fs ++ Raise e :: more →
                d = apply_all fs (createDraft (currentState w))).
Proof.
  intros Hp Hrun Hd r.
  pose proof (start_idle w Hp) as Hstart.
  pose proof (run_steps_coherent steps _ (or_introl Hstart)) as Hc.
  pose proof (run_steps_timers_only steps _ _ (or_introl Hstart)) as Hw.
  rewrite Hrun in Hc, Hw. simpl in Hc, Hw.
  destruct Hc as [[Hnone _] | [d' Harmed]]; [simpl in *; congruence |].
  assert (d' = d) as ->.
  { destruct Harmed as (h & Hd' & _). simpl in Hd'. congruence. }
  assert (call_action name (Plain steps) w = (i, w', Thrown e)) as Hcall.
  { unfold call_action. by rewrite Hrun. }
  pose proof (run_timers_armed name _ _ _ Harmed) as Hfire.
  destruct (clearTimeout_armed _ _ _ Harmed) as (_ & Hf & _).
  destruct (flush_world name d i (with_timers [] (next_timer w') w') Hf)
    as [Hfw _].
  rewrite <- Hfire in Hfw.
  assert (after r = fst (flushMutations d name
                           (with_timers [] (next_timer w') w))
          ∧ caller r = Exception e) as [Hr Hcaller].
  { subst r. unfold run_action. rewrite Hcall. cbn [after caller].
    rewrite Hfw. by rewrite Hw at 2. }
  rewrite Hr.
  destruct (flushMutations_commit d name (with_timers [] (next_timer w') w))
    as (Hs & _ & _ & Hcm).
  split_and!; try done.
  - destruct Harmed as (h & _ & Ht & Hh & _). simpl in Ht, Hh.
    exists h. split; [| done]. rewrite Hw at 1. by rewrite Hh.
  - intros fs more ->. rewrite run_steps_app in Hrun.
    destruct fs as [| f fs].
    { simpl in Hrun. injection Hrun as <- <-. done. }
    destruct (accesses_idle f fs _ w Hstart)
      as (i2 & h2 & Hrun2 & (h & Hd2 & _) & _).
    rewrite Hrun2 in Hrun. simpl in Hrun. injection Hrun as <- _.
    simpl in Hd2. rewrite Hd in Hd2. by injection Hd2.
Qed.

(** C9, as the code has it. An action whose draft has been committed by
    the timer while it was suspended, the notification not throwing,
    and which then, after going through [state] any number of times,
    uses a reference taken out of a draft from before the suspension.
    The stale use fails with the error of the draft engine and changes
    nothing: it opens no draft. The promise the caller holds is rejected
    with that very error, and the error that names the action is the one
    thrown by the function given to [.catch], which rejects the promise
    of the chain, not the one returned. What the function had done
    through [state] after it resumed is in a draft of its own, whose
    timer is still pending: it is committed when that timer fires, after
    the rejection. *)
Theorem stale_reference_rejects (name : string) (f f' : draft → draft)
  (fs gs : list (draft → draft)) (g k : nat) (m : string)
  (more : list step) (w : world) :
  timers w = [] →
  message revoked = Some m →
  String.index 0 "proxy that has been revoked" m = Some (S k) →
  g ≤ 1 →
  let rest := [(AfterTimers, map Access gs ++ Reuse g f' :: more)] in
  let b := Async (map Access (f :: fs)) rest in
  let d1 := apply_all (f :: fs) (createDraft (currentState w)) in
  let n1 := next_timer w + length (f :: fs) in
  let w1 := fst (flushMutations d1 name (with_timers [] n1 w)) in
  let d2 := apply_all gs (createDraft (fst (finishDraft d1))) in
  let r := run_action name b w in
  ordinary (dirty_paths (snd (finishDraft d1))) →
  ∃ i0 h0 i1 w',
    call_action name b w
    = (i0, with_timers [h0] n1 w, Awaitable (Suspended rest))
    ∧ run_steps (map Access gs) (with_draft None i0, w1) = (i1, w', None)
    ∧ run_step (Reuse g f') (i1, w') = (i1, w', Some revoked)
    ∧ continue name rest (i0, with_timers [h0] n1 w)
      = (i1, w', Rejected revoked)
    ∧ caller r = Settles (Rejected revoked)
    ∧ chained r = Some (Rejected (Err (disposed_message name)))
    ∧ match gs with
      | [] =>
          after r = w1
          ∧ commits (trace (after r))
            = commits (trace w)
                ++ [(name, dirty_paths (snd (finishDraft d1)))]
      | _ :: _ =>
          currentDraft i1 = Some d2
          ∧ commits (trace w')
            = commits (trace w)
                ++ [(name, dirty_paths (snd (finishDraft d1)))]
          ∧ after r
            = fst (flushMutations d2 name
                     (with_timers [] (n1 + length gs) w1))
          ∧ commits (trace (after r))
            = commits (trace w)
                ++ [(name, dirty_paths (snd (finishDraft d1)));
                    (name, dirty_paths (snd (finishDraft d2)))]
      end.
Proof.
  intros Hp Hm Hidx Hg rest b d1 n1 w1 d2 r Hord.
  destruct (call_async_armed name f fs rest w Hp)
    as (i0 & h0 & Hcall & Harmed1 & Hgen).
  fold d1 n1 b in Hcall, Harmed1.
  pose proof (run_timers_commits name _ _ _ Harmed1 Hord) as Hfire.
  change (fst (flushMutations d1 name _)) with w1 in Hfire.
  destruct (flushMutations_commit d1 name (with_timers [] n1 w))
    as (Hs1 & Ht1 & Hn1 & Hc1).
  fold w1 in Hs1, Ht1, Hn1, Hc1. simpl in Ht1, Hn1, Hc1.
  assert (idle (with_draft None i0, w1)) as Hidle by (by split).
  assert (on_rejected name revoked = Err (disposed_message name)) as Hrej.
  { destruct revoked as [m' | v |]; try discriminate.
    injection Hm as ->. simpl. by rewrite Hidx. }
  assert (∀ i1 w',
            run_steps (map Access gs) (with_draft None i0, w1)
            = (i1, w', None) →
            run_step (Reuse g f') (i1, w') = (i1, w', Some revoked) →
            continue name rest (i0, with_timers [h0] n1 w)
            = (i1, w', Rejected revoked)) as Hcont.
  { intros i1 w' Hacc Hstale. subst rest. cbn [continue].
    rewrite Hfire, run_steps_app, Hacc. cbn [run_steps].
    by rewrite Hstale. }
  destruct gs as [| g0 gs].
  - exists i0, h0, (with_draft None i0), w1.
    assert (run_step (Reuse g f') (with_draft None i0, w1)
            = (with_draft None i0, w1, Some revoked)) as Hstale by done.
    specialize (Hcont _ _ eq_refl Hstale).
    assert (after r = w1) as Hafter.
    { subst r. rewrite (run_action_async name b w _ _ _ Hcall).
      rewrite (settle_rejected name rest _ _ _ Hcont). cbn [after fst snd].
      by rewrite run_timers_idle. }
    split_and!; try done.
    + subst r. rewrite (run_action_async name b w _ _ _ Hcall).
      by rewrite (settle_rejected name rest _ _ _ Hcont).
    + subst r. rewrite (run_action_async name b w _ _ _ Hcall).
      rewrite (settle_rejected name rest _ _ _ Hcont). cbn [chained snd].
      by rewrite Hrej.
    + by rewrite Hafter.
  - destruct (accesses_idle g0 gs _ _ Hidle)
      as (i1 & h & Hrun2 & Harmed2 & Hgen2).
    rewrite Hn1 in Hrun2, Harmed2. rewrite Hs1 in Harmed2.
    fold d2 in Harmed2.
    pose proof Harmed2 as (h1 & Hd2 & _ & Hh & _ & Hf2).
    simpl in Hd2, Hh, Hf2. subst h.
    simpl generation in Hgen2. rewrite Hgen in Hgen2.
    exists i0, h0, i1, (with_timers [h1] (n1 + length (g0 :: gs)) w1).
    assert (run_step (Reuse g f')
              (i1, with_timers [h1] (n1 + length (g0 :: gs)) w1)
            = (i1, with_timers [h1] (n1 + length (g0 :: gs)) w1,
               Some revoked)) as Hstale.
    { simpl. rewrite Hd2, Hgen2. by rewrite decide_False by lia. }
    specialize (Hcont _ _ Hrun2 Hstale).
    pose proof (run_timers_armed name _ _ _ Harmed2) as Hfire2.
    change (with_timers [] _ (with_timers [h1] _ w1))
      with (with_timers [] (n1 + length (g0 :: gs)) w1) in Hfire2.
    destruct (flush_world name d2 i1
                (with_timers [] (n1 + length (g0 :: gs)) w1) Hf2)
      as [Hfw _].
    rewrite <- Hfire2 in Hfw.
    assert (after r
            = fst (flushMutations d2 name
                     (with_timers [] (n1 + length (g0 :: gs)) w1)))
      as Hafter.
    { subst r. rewrite (run_action_async name b w _ _ _ Hcall).
      by rewrite (settle_rejected name rest _ _ _ Hcont). }
    destruct (flushMutations_commit d2 name
                (with_timers [] (n1 + length (g0 :: gs)) w1))
      as (_ & _ & _ & Hc2).
    change (trace (with_timers _ _ w1)) with (trace w1) in Hc2.
    split_and!; try done.
    + subst r. rewrite (run_action_async name b w _ _ _ Hcall).
      by rewrite (settle_rejected name rest _ _ _ Hcont).
    + subst r. rewrite (run_action_async name b w _ _ _ Hcall).
      rewrite (settle_rejected name rest _ _ _ Hcont). cbn [chained snd].
      by rewrite Hrej.
    + by rewrite Hafter, Hc2, Hc1, <- app_assoc.
Qed.

End ActionFacts.

(** ** The wrapped action on examples *)


(** C3, the claim as stated fails. The action edits "a", awaits a promise
    that is settled already, so that it resumes before any timer can
    fire, and edits "b": there is one commit, with both paths. *)
Lemma async_two_commits_counterexample :
  let r :=
    @run_action journal quiet "act"
      (Async [edit (assign "a")] [(BeforeTimers, [edit (assign "b")])])
      store_x in
  caller r = Settles Fulfilled
  ∧ commits (trace (after r)) = [("act", ["a"; "b"])]
  ∧ length (commits (trace (after r))) ≠ 2.
Proof. vm_compute. split_and!; [done | done | lia]. Qed.

Lemma async_action_two_commits_witness :
  let r :=
    @run_action journal quiet "act"
      (Async [edit (assign "a")] [(AfterTimers, [edit (assign "b")])])
      store_x in
  caller r = Settles Fulfilled
  ∧ commits (trace (after r)) = [("act", ["a"]); ("act", ["b"])].
Proof.
  destruct (@async_action_two_commits journal quiet "act"
              (record (assign "a")) (record (assign "b")) [] [] store_x)
    as (i0 & h0 & i1 & h1 & _ & _ & _ & _ & _ & _ & _ & Hcommits & _
        & Hcaller & Hafter).
  - reflexivity.
  - compute_done.
  - split; [exact Hcaller |].
    exact (eq_trans (f_equal (λ x, commits (trace x)) Hafter) Hcommits).
Defined.



(** C8, the claim as stated fails. The action writes "x" and throws: the
    caller gets the error, and when the timer has fired the write is
    committed, the subscribers of "x" and the global subscriber have been
    called, and the state is no longer the one from before the action. *)
Lemma throwing_action_counterexample :
  let r :=
    @run_action journal quiet "act" (Plain [edit (assign "x"); Raise boom])
      three_on_x in
  caller r = Exception boom
  ∧ trace (after r)
    = [Mutations "act" ["x"]; Render sub0 "x"; Render sub1 "x";
       Render sub2 "x"; Global 5]
  ∧ commits (trace (after r)) ≠ []
  ∧ currentState three_on_x = []
  ∧ currentState (after r) = [assign "x"]
  ∧ currentState (after r) ≠ currentState three_on_x.
Proof. vm_compute. split_and!; done. Qed.

Lemma throwing_action_commits_later_witness :
  let steps := [edit (assign "x"); @Raise journal boom] in
  @call_action journal quiet "act" (Plain steps) three_on_x
  = (@Build_invocation journal (Some ([], [assign "x"])) (Some 0) 1 false,
     with_timers [0] 1 three_on_x, Thrown boom)
  ∧ caller (@run_action journal quiet "act" (Plain steps) three_on_x)
    = Exception boom
  ∧ commits
      (trace (after (@run_action journal quiet "act" (Plain steps) three_on_x)))
    = [("act", ["x"])].
Proof.
  pose proof (@throwing_action_commits_later journal quiet "act"
                [edit (assign "x"); @Raise journal boom]
                three_on_x (with_timers [0] 1 three_on_x)
                (@Build_invocation journal (Some ([], [assign "x"]))
                   (Some 0) 1 false)
                boom ([], [assign "x"]) eq_refl eq_refl eq_refl)
    as (Hcall & _ & Hcaller & _ & _ & Hcommits & _).
  split_and!; [exact Hcall | exact Hcaller | exact Hcommits].
Defined.

(** C9, the claim as stated fails. The action writes "a", is suspended
    until the timer has committed its draft, and then uses a reference
    into that draft. The promise the caller holds is rejected with the
    error of the draft engine, in which the name of the action does not
    occur; the error that names the action rejects the chained promise. *)
Lemma stale_reference_counterexample :
  let r :=
    @run_action journal quiet "act"
      (Async [edit (assign "a")]
         [(AfterTimers, [@Reuse journal 1 (record (assign "b"))])])
      store_x in
  caller r
  = Settles
      (Rejected (Err "Cannot perform 'set' on a proxy that has been revoked"))
  ∧ caller r ≠ Settles (Rejected (Err (disposed_message "act")))
  ∧ String.index 0 "act"
      "Cannot perform 'set' on a proxy that has been revoked" = None
  ∧ chained r = Some (Rejected (Err (disposed_message "act"))).
Proof. vm_compute. split_and!; done. Qed.

(** The action writes "a", is suspended until the timer has committed
    it, writes "b" through [state] and then uses a reference into the
    first draft: the promise is rejected, and "b" is committed by its
    timer afterwards. *)
Lemma stale_reference_rejects_witness :
  let r :=
    @run_action journal quiet "act"
      (Async [edit (assign "a")]
         [(AfterTimers,
           [edit (assign "b"); @Reuse journal 1 (record (assign "c"))])])
      store_x in
  caller r = Settles (Rejected (@revoked journal))
  ∧ chained r = Some (Rejected (Err (disposed_message "act")))
  ∧ commits (trace (after r)) = [("act", ["a"]); ("act", ["b"])].
Proof.
  destruct (@stale_reference_rejects journal quiet "act"
              (record (assign "a")) (record (assign "c")) []
              [record (assign "b")] 1 25
              "Cannot perform 'set' on a proxy that has been revoked" []
              store_x)
    as (i0 & h0 & i1 & w' & _ & _ & _ & _ & Hcaller & Hchained & Hrest).
  - reflexivity.
  - reflexivity.
  - reflexivity.
  - lia.
  - compute_done.
  - destruct Hrest as (_ & _ & _ & Hcommits).
    split_and!; [exact Hcaller | exact Hchained | exact Hcommits].
Defined.

(** * More of the store *)

(** ** The registry keeps its shape *)

Lemma splice1_sublist {A} (start : Z) (l : list A) :
  splice1 start l `sublist_of` l.
Proof.
  unfold splice1.
  set (a := if (start <? 0)%Z
            then Z.max (Z.of_nat (length l) + start) 0
            else Z.min start (Z.of_nat (length l))).
  assert (0 ≤ a ≤ Z.of_nat (length l))%Z as Ha.
  { subst a. destruct (start <? 0)%Z eqn:Hs; [lia |].
    apply Z.ltb_ge in Hs. lia. }
  set (b := Z.to_nat (a + Z.min 1 (Z.of_nat (length l) - a))).
  rewrite <- (take_drop (Z.to_nat a) l) at 3.
  apply sublist_app; [done |].
  replace b with (Z.to_nat a + (b - Z.to_nat a)) by (subst b; lia).
  rewrite <- drop_drop. apply sublist_drop.
Qed.

Section RegistryShape.
Context `{DraftEngine} `{Callbacks}.

Lemma remove_listeners_sublist (sub : subscription) (ps : list string) :
  ∀ (pl : gmap string (list subscription)) (q : string),
    default [] (fold_left (remove_listener sub) ps pl !! q)
    `sublist_of` default [] (pl !! q).
Proof.
  induction ps as [| p ps IH]; intros pl q; simpl; [done |].
  etrans; [apply IH |].
  rewrite remove_listener_lookup. case_decide; [| done].
  destruct (pl !! q); simpl; [apply splice1_sublist | done].
Qed.

(** A disposer only ever takes entries out of buckets. *)
Lemma dispose_sublist (d : disposer) (w : world) (p : string) :
  bucket (dispose d w) p `sublist_of` bucket w p.
Proof.
  destruct d as [sub ps | u]; [| done].
  apply remove_listeners_sublist.
Qed.

Lemma call_sublist (u : callback) (w : world) (p : string) :
  bucket (call u w) p `sublist_of` bucket w p.
Proof.
  unfold call. generalize (effect u). intros ds. revert w.
  induction ds as [| d ds IH]; intros w; simpl; [done |].
  etrans; [apply IH | apply dispose_sublist].
Qed.

Lemma forEach_bucket_sublist (q : string) (n : nat) :
  ∀ (k : nat) (w : world) (p : string),
    bucket (forEach_bucket q n k w) p `sublist_of` bucket w p.
Proof.
  induction n as [| n IH]; intros k w p; simpl; [done |].
  etrans; [apply IH |].
  destruct (bucket w q !! k); [| done].
  etrans; [apply call_sublist | done].
Qed.

Lemma forEach_global_sublist (n : nat) :
  ∀ (k : nat) (w : world) (p : string),
    bucket (forEach_global n k w) p `sublist_of` bucket w p.
Proof.
  induction n as [| n IH]; intros k w p; simpl; [done |].
  etrans; [apply IH |].
  destruct (globalListeners w !! k); [| done].
  etrans; [apply call_sublist | done].
Qed.

Lemma notify_path_sublist (w : world) (q p : string) :
  bucket (fst (notify_path w q)) p `sublist_of` bucket w p.
Proof.
  unfold notify_path. destruct (get (pathListeners w) q); simpl; [| done..].
  apply forEach_bucket_sublist.
Qed.

Lemma notify_paths_sublist (paths : list string) (w : world) (p : string) :
  bucket (fst (forEach notify_path paths w)) p `sublist_of` bucket w p.
Proof.
  revert p.
  apply (forEach_keeps notify_path
           (λ w w' : world, ∀ p, bucket w' p `sublist_of` bucket w p)).
  - done.
  - intros w1 w2 w3 H12 H23 p. etrans; [apply H23 | apply H12].
  - intros w' q p. apply notify_path_sublist.
Qed.

Lemma updateListeners_sublist (paths : list string) (w : world) (p : string) :
  bucket (fst (updateListeners paths w)) p `sublist_of` bucket w p.
Proof.
  unfold updateListeners.
  pose proof (notify_paths_sublist paths w p) as Hp.
  destruct (forEach notify_path paths w) as [w' [e |]]; [done |].
  etrans; [apply forEach_global_sublist | done].
Qed.

Lemma flushMutations_sublist (d : draft) (name : string) (w : world)
  (p : string) :
  bucket (fst (flushMutations d name w)) p `sublist_of` bucket w p.
Proof.
  unfold flushMutations. destruct (getUpdate d) as [newState paths].
  etrans; [apply updateListeners_sublist | done].
Qed.

(** Buckets that only lose entries keep the registry well formed. *)
Lemma well_formed_sublist (w w' : world) :
  (∀ p, bucket w' p `sublist_of` bucket w p) →
  objects w' = objects w →
  sets w' = sets w →
  well_formed w → well_formed w'.
Proof.
  intros Hsub Hobj Hsets (Halloc & Hnd & Hs). split_and!.
  - intros p s Hs'. rewrite Hobj. apply (Halloc p).
    by eapply elem_of_sublist.
  - intros p. eapply sublist_NoDup; [apply Hnd |].
    by apply fmap_sublist.
  - intros r content. rewrite Hsets. apply Hs.
Qed.

(** X16. The registry stays well formed: a new store is, and subscribing
    (with or without paths, whether the call returns or throws), calling
    any disposer, any number of times, notifying and committing keep it
    so. *)
Theorem registry_stays_well_formed :
  (∀ state sets,
     (∀ r content, sets !! r = Some content → NoDup content) →
     well_formed (createStore state sets))
  ∧ (∀ w u paths name,
       well_formed w → well_formed (fst (subscribe u paths name w)))
  ∧ (∀ w d, well_formed w → well_formed (dispose d w))
  ∧ (∀ w paths, well_formed w → well_formed (fst (updateListeners paths w)))
  ∧ (∀ w d name,
       well_formed w → well_formed (fst (flushMutations d name w))).
Proof.
  split_and!.
  - intros state sets Hsets. split_and!.
    + intros p s Hs. unfold bucket in Hs. simpl in Hs.
      rewrite lookup_empty in Hs. by apply elem_of_nil in Hs.
    + intros p. unfold bucket. simpl. rewrite lookup_empty. apply NoDup_nil_2.
    + done.
  - intros w u [r |] name (Halloc & Hnd & Hs); [| by split_and!].
    assert (NoDup (default [] (sets w !! r))) as Hcontent.
    { destruct (sets w !! r) as [content |] eqn:Hr; [by eapply Hs |].
      apply NoDup_nil_2. }
    destruct (subscribe_reached w u r name Hcontent) as (reached & Hb & _).
    destruct (subscribe_objects w u r name) as [Hobj Hsets].
    split_and!.
    + intros p s. rewrite Hb, Hobj. case_decide.
      * intros [Hin | ->%list_elem_of_singleton]%elem_of_app; simpl; [| lia].
        apply Halloc in Hin. lia.
      * intros Hin. apply Halloc in Hin. lia.
    + intros p. rewrite Hb. case_decide; [| done].
      rewrite map_app. apply NoDup_app. split_and!; [done | |].
      * intros x Hx ->%list_elem_of_singleton.
        apply list_elem_of_fmap in Hx as (s & Heq & Hin).
        apply Halloc in Hin. simpl in Heq. lia.
      * apply NoDup_singleton.
    + by rewrite Hsets.
  - intros w d. apply well_formed_sublist; [| by destruct d..].
    intros p. apply dispose_sublist.
  - intros w paths. apply well_formed_sublist.
    + intros p. apply updateListeners_sublist.
    + apply updateListeners_untouched.
    + apply updateListeners_untouched.
  - intros w d name. apply well_formed_sublist.
    + intros p. apply flushMutations_sublist.
    + unfold flushMutations. destruct (getUpdate d) as [newState paths].
      by destruct (updateListeners_untouched paths
                     (log (Mutations name paths) (with_state newState w)))
        as (_ & _ & _ & _ & -> & _).
    + unfold flushMutations. destruct (getUpdate d) as [newState paths].
      by destruct (updateListeners_untouched paths
                     (log (Mutations name paths) (with_state newState w)))
        as (_ & _ & _ & -> & _).
Qed.

End RegistryShape.

Lemma registry_stays_well_formed_witness :
  well_formed three_on_x
  ∧ well_formed (dispose (DisposePaths sub1 ["x"]) three_on_x)
  ∧ well_formed (fst (@updateListeners journal unmounting ["x"] three_on_x)).
Proof.
  pose proof (@registry_stays_well_formed journal unmounting)
    as (Hnew & Hsub & Hdis & Hupd & _).
  assert (well_formed three_on_x) as Hw.
  { do 4 apply Hsub. apply Hnew. intros r content Hr.
    apply lookup_insert_Some in Hr as [[_ <-] | [_ Hr]]; [compute_done |].
    apply lookup_singleton_Some in Hr as [_ <-]. compute_done. }
  split_and!; [exact Hw | by apply Hdis | by apply Hupd].
Defined.

(** ** Disposing *)

Section Disposing.
Context `{DraftEngine} `{Callbacks}.

(** X1. The first call of the disposer of a subscription that is in the
    buckets of its paths takes that subscription, and nothing else, out
    of each of them, keeps the order of the others, and leaves every
    other bucket, the global list and the state as they are. *)
Theorem dispose_removes_subscription (sub : subscription)
  (currentPaths : list string) (w : world) :
  NoDup currentPaths →
  (∀ p, NoDup (map sub_id (bucket w p))) →
  (∀ p, p ∈ currentPaths → sub ∈ bucket w p) →
  (∀ p,
     bucket (dispose (DisposePaths sub currentPaths) w) p
     = if decide (p ∈ currentPaths)
       then filter (λ s, s ≠ sub) (bucket w p)
       else bucket w p)
  ∧ globalListeners (dispose (DisposePaths sub currentPaths) w)
    = globalListeners w
  ∧ currentState (dispose (DisposePaths sub currentPaths) w)
    = currentState w.
Proof.
  intros Hnd Hids Hin. split_and!; [| done | done].
  by apply dispose_present_buckets.
Qed.

(** X4. A disposer called for a subscription that is in none of the
    buckets of its paths takes the last entry out of each of these
    buckets, whoever it belongs to, and leaves the other buckets alone;
    the disposer of a global subscriber that is not in the global list
    takes the last global subscriber out. *)
Theorem dispose_absent_removes_last (w : world) :
  (∀ sub currentPaths,
     NoDup currentPaths →
     (∀ p s, p ∈ currentPaths → s ∈ bucket w p → sub_id s ≠ sub_id sub) →
     ∀ p,
       bucket (dispose (DisposePaths sub currentPaths) w) p
       = if decide (p ∈ currentPaths)
         then removelast (bucket w p)
         else bucket w p)
  ∧ (∀ u,
       u ∉ globalListeners w →
       globalListeners (dispose (DisposeGlobal u) w)
       = removelast (globalListeners w)).
Proof.
  split.
  - intros sub currentPaths Hnd Habsent p. unfold bucket at 1. simpl.
    rewrite remove_listeners_lookup by done.
    case_decide as Hp; [| done].
    specialize (Habsent p). unfold bucket in *.
    destruct (pathListeners w !! p) as [b |]; simpl in *; [| done].
    apply splice_absent_subscription, Forall_forall.
    intros s Hs. by apply Habsent.
  - intros u Hu. simpl. rewrite indexOf_absent.
    + apply splice1_minus_one.
    + apply Forall_forall. by intros x Hx ->.
Qed.

(** X3. The disposer of a global subscriber takes the first occurrence of
    its update function out of the global list and nothing else: when the
    same function has been subscribed before, it is that earlier entry
    that goes. *)
Theorem dispose_global_first (u : callback) (l1 l2 : list callback)
  (w : world) :
  globalListeners w = l1 ++ u :: l2 →
  u ∉ l1 →
  globalListeners (dispose (DisposeGlobal u) w) = l1 ++ l2
  ∧ pathListeners (dispose (DisposeGlobal u) w) = pathListeners w.
Proof.
  intros Hg Hu. split; [| done]. simpl. rewrite Hg.
  rewrite indexOf_first; [apply splice1_at | | done].
  apply Forall_forall. by intros x Hx ->.
Qed.

(** A subscription that is in no bucket is not called, whatever the update
    functions that are called do. *)
Lemma forEach_bucket_never (sub : subscription) (q : string) (n : nat) :
  ∀ (k : nat) (w : world),
    (∀ p, sub ∉ bucket w p) →
    ∃ es, trace (forEach_bucket q n k w) = trace w ++ es
          ∧ ∀ p, Render sub p ∉ es.
Proof.
  induction n as [| n IH]; intros k w Hout; simpl.
  - exists []. split; [by rewrite app_nil_r |].
    intros p Hp. by apply elem_of_nil in Hp.
  - destruct (bucket w q !! k) as [s |] eqn:Hk; [| by apply IH].
    destruct (IH (S k) (call (update s) (log (Render s q) w)))
      as (es & -> & Hes).
    { intros p Hin. apply (Hout p).
      eapply elem_of_sublist; [exact Hin |].
      etrans; [apply call_sublist | done]. }
    exists (Render s q :: es). rewrite call_trace. simpl.
    rewrite <- app_assoc. split; [done |].
    intros p [Heq | Hp]%elem_of_cons; [| by apply (Hes p)].
    injection Heq as -> ->. apply (Hout q).
    by eapply list_elem_of_lookup_2.
Qed.

Lemma forEach_global_never (sub : subscription) (n : nat) :
  ∀ (k : nat) (w : world),
    ∃ es, trace (forEach_global n k w) = trace w ++ es
          ∧ ∀ p, Render sub p ∉ es.
Proof.
  intros k w. destruct (forEach_global_trace n k w) as (gs & -> & Hgs).
  exists gs. split; [done |]. intros p Hp.
  rewrite Forall_forall in Hgs. by destruct (Hgs _ Hp) as [u Hu].
Qed.

Lemma notify_paths_never (sub : subscription) (paths : list string) :
  ∀ w : world,
    (∀ p, sub ∉ bucket w p) →
    ∃ es, trace (fst (forEach notify_path paths w)) = trace w ++ es
          ∧ ∀ p, Render sub p ∉ es.
Proof.
  induction paths as [| q paths IH]; intros w Hout; simpl.
  - exists []. split; [by rewrite app_nil_r |].
    intros p Hp. by apply elem_of_nil in Hp.
  - assert (∃ es, trace (fst (notify_path w q)) = trace w ++ es
                  ∧ ∀ p, Render sub p ∉ es) as (es0 & Ht0 & Hes0).
    { unfold notify_path. destruct (get (pathListeners w) q); simpl.
      - by apply forEach_bucket_never.
      - exists []. split; [by rewrite app_nil_r |].
        intros p Hp. by apply elem_of_nil in Hp.
      - exists []. split; [by rewrite app_nil_r |].
        intros p Hp. by apply elem_of_nil in Hp. }
    pose proof (notify_path_sublist w q) as Hsub.
    destruct (notify_path w q) as [w' [e |]]; simpl in *; [by exists es0 |].
    destruct (IH w') as (es & -> & Hes).
    { intros p Hin. apply (Hout p).
      eapply elem_of_sublist; [exact Hin | apply Hsub]. }
    exists (es0 ++ es). rewrite Ht0, <- app_assoc. split; [done |].
    intros p [Hp | Hp]%elem_of_app; [by apply (Hes0 p) | by apply (Hes p)].
Qed.

Lemma updateListeners_never (sub : subscription) (paths : list string) :
  ∀ w : world,
    (∀ p, sub ∉ bucket w p) →
    ∃ es, trace (fst (updateListeners paths w)) = trace w ++ es
          ∧ ∀ p, Render sub p ∉ es.
Proof.
  intros w Hout. unfold updateListeners.
  destruct (notify_paths_never sub paths w Hout) as (es1 & Ht1 & Hes1).
  destruct (forEach notify_path paths w) as [w' [e |]]; simpl in *;
    [by exists es1 |].
  destruct (forEach_global_never sub (length (globalListeners w')) 0 w')
    as (es2 & -> & Hes2).
  exists (es1 ++ es2). rewrite Ht1, <- app_assoc. split; [done |].
  intros p [Hp | Hp]%elem_of_app; [by apply (Hes1 p) | by apply (Hes2 p)].
Qed.

(** X2. Once the disposer of a subscription has been called, a commit
    never calls that subscription again, whichever paths are dirty and
    whatever the update functions that are called do. *)
Theorem disposed_never_called (sub : subscription)
  (currentPaths paths : list string) (d : draft) (name : string)
  (w : world) :
  NoDup currentPaths →
  (∀ p, NoDup (map sub_id (bucket w p))) →
  (∀ p, sub ∈ bucket w p ↔ p ∈ currentPaths) →
  let w' := dispose (DisposePaths sub currentPaths) w in
  (∀ p, sub ∉ bucket w' p)
  ∧ (∃ es, trace (fst (updateListeners paths w')) = trace w' ++ es
           ∧ ∀ p, Render sub p ∉ es)
  ∧ (∃ es, trace (fst (flushMutations d name w')) = trace w' ++ es
           ∧ ∀ p, Render sub p ∉ es).
Proof.
  intros Hnd Hids Hin w'.
  assert (∀ p, sub ∉ bucket w' p) as Hout.
  { intros p. subst w'.
    rewrite (dispose_present_buckets sub currentPaths w Hnd Hids)
      by (intros q Hq; by apply Hin).
    case_decide as Hp.
    - intros [Hne _]%list_elem_of_filter. by apply Hne.
    - intros Hsub. by apply Hp, Hin. }
  split_and!; [done | by apply updateListeners_never |].
  unfold flushMutations. destruct (getUpdate d) as [newState dirty].
  destruct (updateListeners_never sub dirty
              (log (Mutations name dirty) (with_state newState w')) Hout)
    as (es & -> & Hes).
  exists (Mutations name dirty :: es). simpl. rewrite <- app_assoc.
  split; [done |].
  intros p [Heq | Hp]%elem_of_cons; [done | by apply (Hes p)].
Qed.

End Disposing.

(** ** Dispatch over a bucket whose subscriber removes itself *)

Section SelfDisposal.
Context `{DraftEngine} `{Callbacks}.


End SelfDisposal.

(** ** More on the dirty paths *)

Lemma add_operation_fold (paths : list string) (o : operation) :
  add_operation paths o
  = fold_left (λ acc x, set_add x acc) (contribution o) paths.
Proof. unfold add_operation, contribution. by destruct (op o). Qed.

Lemma set_adds_first_appearance (xs : list string) :
  fold_left (λ acc x, set_add x acc) xs []
  = reverse (remove_dups (reverse xs)).
Proof.
  induction xs as [| x xs IH] using rev_ind; [done |].
  rewrite fold_left_app, reverse_snoc. simpl. rewrite IH.
  unfold set_add.
  destruct (decide_rel elem_of x (reverse xs)) as [Hin | Hout].
  - by rewrite decide_True
      by (by rewrite elem_of_reverse, elem_of_remove_dups).
  - rewrite decide_False
      by (by rewrite elem_of_reverse, elem_of_remove_dups).
    by rewrite reverse_cons.
Qed.

Lemma dirty_paths_fold (ops : list operation) :
  ∀ acc : list string,
    fold_left add_operation ops acc
    = fold_left (λ acc x, set_add x acc) (concat (map contribution ops)) acc.
Proof.
  induction ops as [| o ops IH]; intros acc; simpl; [done |].
  by rewrite fold_left_app, IH, add_operation_fold.
Qed.

(** X6. The dirty paths come in the order in which the edit records first
    give them, each record giving the parent path before its own path:
    this is the order in which [updateListeners] goes through the
    buckets. *)
Theorem dirty_paths_first_appearance (ops : list operation) :
  dirty_paths ops
  = reverse (remove_dups (reverse (concat (map contribution ops)))).
Proof.
  unfold dirty_paths. by rewrite dirty_paths_fold, set_adds_first_appearance.
Qed.

(** X7. Adding or removing a member directly under the root of the state
    marks the root: the empty path string is dirty, before the path of the
    member. *)
Theorem root_member_marks_root :
  (∀ (ops : list operation) (o : operation) (k : key),
     o ∈ ops → path o = [k] → op o = OpAdd ∨ op o = OpRemove →
     "" ∈ dirty_paths ops)
  ∧ (∀ k : string,
       k ≠ "" →
       dirty_paths [{| op := OpAdd; path := [Name k] |}] = [""; k]
       ∧ dirty_paths [{| op := OpRemove; path := [Name k] |}] = [""; k]
       ∧ dirty_paths [{| op := OpReplace; path := [Name k] |}] = [k]).
Proof.
  split.
  - intros ops o k Ho Hp Hop. apply dirty_paths_elem. exists o.
    split; [done |]. apply contribution_elem. right.
    split; [done |]. by rewrite Hp.
  - intros k Hk.
    assert (set_add k [""] = [""; k]) as Hadd.
    { unfold set_add. rewrite decide_False; [done |].
      by intros ->%list_elem_of_singleton. }
    by split_and!.
Qed.
(** ** More on the wrapped action *)

Section ActionMore.
Context `{DraftEngine} `{Callbacks}.

(** A function that goes through [state] and returns a plain value. *)
Lemma plain_accesses_run (name : string) (f : draft → draft)
  (fs : list (draft → draft)) (w : world) :
  timers w = [] →
  let flushed :=
    flushMutations (apply_all (f :: fs) (createDraft (currentState w))) name
      (with_timers [] (next_timer w + length (f :: fs)) w) in
  after (run_action name (Plain (map Access (f :: fs))) w) = fst flushed
  ∧ caller (run_action name (Plain (map Access (f :: fs))) w)
    = match snd flushed with
      | None => Value
      | Some e => Exception e
      end.
Proof.
  intros Hp flushed.
  destruct (accesses_idle f fs _ w (start_idle w Hp))
    as (i & h & Hrun & Harmed & _).
  destruct (clearTimeout_armed _ _ _ Harmed) as (Hd & Hf & Hclear).
  unfold run_action, call_action. rewrite Hrun, Hd, Hclear.
  change (with_timers [] _ (with_timers h _ w))
    with (with_timers [] (next_timer w + length (f :: fs)) w).
  unfold flush. rewrite Hf. fold flushed.
  assert (timers (fst flushed) = []) as Ht.
  { subst flushed. by rewrite flushMutations_timers. }
  destruct flushed as [wf [e |]]; simpl in Ht;
    by rewrite run_timers_idle.
Qed.

(** X8. Two actions called one after the other each make their own
    commit, in the order of the calls, and the draft of the second is
    made from the state the first has committed. *)
Theorem plain_actions_compose (name1 name2 : string) (f g : draft → draft)
  (fs gs : list (draft → draft)) (w : world) :
  timers w = [] →
  let r1 := run_action name1 (Plain (map Access (f :: fs))) w in
  let r2 := run_action name2 (Plain (map Access (g :: gs))) (after r1) in
  let d1 := apply_all (f :: fs) (createDraft (currentState w)) in
  let d2 := apply_all (g :: gs) (createDraft (fst (finishDraft d1))) in
  currentState (after r1) = fst (finishDraft d1)
  ∧ currentState (after r2) = fst (finishDraft d2)
  ∧ commits (trace (after r2))
    = commits (trace w)
        ++ [(name1, dirty_paths (snd (finishDraft d1)));
            (name2, dirty_paths (snd (finishDraft d2)))]
  ∧ timers (after r2) = [].
Proof.
  intros Hp r1 r2 d1 d2.
  destruct (plain_accesses_run name1 f fs w Hp) as [Hr1 _].
  fold r1 d1 in Hr1.
  destruct (flushMutations_commit d1 name1
              (with_timers [] (next_timer w + length (f :: fs)) w))
    as (Hs1 & Ht1 & _ & Hc1).
  rewrite <- Hr1 in Hs1, Ht1, Hc1. simpl in Ht1, Hc1.
  destruct (plain_accesses_run name2 g gs (after r1) Ht1) as [Hr2 _].
  fold r2 in Hr2. rewrite Hs1 in Hr2. fold d2 in Hr2.
  destruct (flushMutations_commit d2 name2
              (with_timers [] (next_timer (after r1) + length (g :: gs))
                 (after r1)))
    as (Hs2 & Ht2 & _ & Hc2).
  rewrite <- Hr2 in Hs2, Ht2, Hc2. simpl in Ht2, Hc2.
  split_and!; [done | done | | by rewrite Ht2].
  by rewrite Hc2, Hc1, <- app_assoc.
Qed.


Lemma run_steps_no_access (steps : list step) (i : invocation) (w : world) :
  idle (i, w) →
  Forall (λ s, ¬ is_access s) steps →
  ∃ r, run_steps steps (i, w) = (i, w, r).
Proof.
  intros [Hd _] Hsteps. simpl in Hd.
  destruct Hsteps as [| [f | g f | e] steps Hs _]; simpl.
  - by eexists.
  - by destruct Hs.
  - rewrite Hd. by eexists.
  - by eexists.
Qed.

Lemma continue_no_access (name : string) (rest : list (resume * list step))
  (i : invocation) (w : world) :
  idle (i, w) →
  Forall (λ s, ¬ is_access s) (concat (map snd rest)) →
  ∃ o, continue name rest (i, w) = (i, w, o).
Proof.
  intros Hidle. induction rest as [| [r steps] rest IH]; simpl; intros Hrest.
  - by eexists.
  - apply Forall_app in Hrest as [Hsteps Hrest].
    assert (match r with
            | BeforeTimers => (i, w)
            | AfterTimers => run_timers name (i, w)
            end = (i, w)) as ->.
    { destruct r; [done |]. apply run_timers_idle, Hidle. }
    destruct (run_steps_no_access steps i w Hidle Hsteps) as [[e |] ->].
    + by eexists.
    + by apply IH.
Qed.

(** X10. A call whose function never goes through [state], whether it
    returns, throws, or returns a promise that is fulfilled or rejected,
    leaves the store exactly as it was: no draft, no timer, no commit, no
    update call. *)
Theorem no_access_no_commit (name : string) (b : body) (w : world) :
  timers w = [] →
  Forall (λ s, ¬ is_access s) (steps_of b) →
  after (run_action name b w) = w.
Proof.
  intros Hp Hsteps. pose proof (start_idle w Hp) as Hidle.
  unfold run_action, call_action.
  destruct b as [steps | steps rest]; simpl in Hsteps.
  - destruct (run_steps_no_access steps _ w Hidle Hsteps) as [[e |] ->];
      simpl; by rewrite run_timers_idle.
  - apply Forall_app in Hsteps as [Hsteps Hrest].
    destruct (run_steps_no_access steps _ w Hidle Hsteps) as [[e |] ->].
    + simpl. by rewrite run_timers_idle.
    + unfold settle.
      destruct (continue_no_access name rest _ w Hidle Hrest) as [[| e] ->].
      * rewrite on_fulfilled_idle by done. simpl. by rewrite run_timers_idle.
      * simpl. by rewrite run_timers_idle.
Qed.

(** *** One timer, and a draft with it *)

Lemma clearTimeout_tidy (i : invocation) (w : world) :
  tidy (i, w) → timers (clearTimeout (timeout i) w) = [].
Proof.
  intros [Ht | (h & d & Ht & Hh & _)]; simpl in *.
  - by rewrite clearTimeout_none.
  - by rewrite Hh, (clearTimeout_pending h w Ht).
Qed.

Lemma flush_keeps (name : string) (d : draft) (i : invocation) (w : world) :
  timers (snd (fst (flush name d (i, w)))) = timers w
  ∧ timeout (fst (fst (flush name d (i, w)))) = timeout i.
Proof.
  unfold flush. destruct (finished i); [done |].
  pose proof (flushMutations_timers d name w) as Ht.
  by destruct (flushMutations d name w) as [w' [e |]].
Qed.

Lemma clearTimeout_next (t : option nat) (w : world) :
  next_timer (clearTimeout t w) = next_timer w.
Proof. by destruct t. Qed.

Lemma configureUpdate_tidy (i : invocation) (w : world) :
  tidy (i, w) →
  timers (snd (configureUpdate (i, w))) = [next_timer w]
  ∧ timeout (fst (configureUpdate (i, w))) = Some (next_timer w)
  ∧ is_Some (currentDraft (fst (configureUpdate (i, w)))).
Proof.
  intros Ht. unfold configureUpdate.
  destruct (currentDraft i) as [d |] eqn:Hd.
  - pose proof (clearTimeout_tidy i w Ht) as Hc.
    unfold setTimeout. simpl. rewrite Hc, Hd, clearTimeout_next.
    by split_and!.
  - destruct Ht as [Ht | (h & d & _ & _ & Hd')]; simpl in *; [| congruence].
    rewrite (clearTimeout_none _ w Ht). simpl. by rewrite Ht.
Qed.

Lemma run_step_tidy (s : step) (iw : invocation * world) :
  tidy iw → tidy (fst (run_step s iw)).
Proof.
  destruct iw as [i w]. intros Ht. destruct s as [f | g f | e]; [| | done].
  - destruct (configureUpdate_tidy i w Ht) as (Hp & Hh & [d Hd]).
    unfold run_step.
    destruct (configureUpdate (i, w)) as [i' w']. simpl in Hp, Hh, Hd.
    right. exists (next_timer w).
    destruct (finished i'); simpl; [by exists d |].
    exists (f d). by rewrite Hd.
  - simpl. destruct (currentDraft i) as [d |] eqn:Hd; [| done].
    case_decide; [| done]. destruct (finished i); [done |]. simpl.
    destruct Ht as [Ht | (h & d' & Ht & Hh & _)]; [by left |].
    right. by exists h, (f d).
Qed.

Lemma run_steps_tidy (steps : list step) :
  ∀ iw : invocation * world, tidy iw → tidy (fst (run_steps steps iw)).
Proof.
  induction steps as [| s steps IH]; intros iw Ht; simpl; [done |].
  pose proof (run_step_tidy s iw Ht) as Hs.
  destruct (run_step s iw) as [iw' [e |]]; [done | by apply IH].
Qed.

Lemma fire_pending (name : string) (i : invocation) (w : world) (h : nat)
  (d : draft) :
  timers w = [h] →
  currentDraft i = Some d →
  fire name (i, w) h
  = fst (flush name d (i, with_timers [] (next_timer w) w)).
Proof.
  intros Ht Hd. unfold fire. cbv beta iota.
  rewrite decide_True by (rewrite Ht; left).
  unfold on_timer. by rewrite Hd, (clearTimeout_pending h w Ht).
Qed.

Lemma run_timers_tidy (name : string) (iw : invocation * world) :
  tidy iw → timers (snd (run_timers name iw)) = [].
Proof.
  destruct iw as [i w]. intros [Ht | (h & d & Ht & Hh & Hd)]; simpl in *.
  - by rewrite run_timers_idle.
  - unfold run_timers. cbn [snd]. rewrite Ht. cbn [fold_left].
    rewrite (fire_pending name i w h d Ht Hd).
    by destruct (flush_keeps name d i (with_timers [] (next_timer w) w))
      as [-> _].
Qed.

Lemma on_fulfilled_tidy (name : string) (iw : invocation * world) :
  tidy iw → timers (snd (fst (on_fulfilled name iw))) = [].
Proof.
  destruct iw as [i w]. intros Ht. unfold on_fulfilled.
  pose proof (clearTimeout_tidy i w Ht) as Hc.
  destruct (currentDraft i) as [d |]; [| done].
  by destruct (flush_keeps name d i (clearTimeout (timeout i) w)) as [-> _].
Qed.

Lemma continue_tidy (name : string) (rest : list (resume * list step)) :
  ∀ iw : invocation * world, tidy iw → tidy (fst (continue name rest iw)).
Proof.
  induction rest as [| [r steps] rest IH]; intros iw Ht; simpl; [done |].
  assert (tidy
            match r with
            | BeforeTimers => iw
            | AfterTimers => run_timers name iw
            end) as Ht'.
  { destruct r; [done |]. left. by apply run_timers_tidy. }
  pose proof (run_steps_tidy steps _ Ht') as Hs.
  destruct (run_steps steps _) as [iw' [e |]]; [done | by apply IH].
Qed.

(** X12. At every point of a call at most one deferred commit is
    pending, the one whose handle [timeout] holds, and then
    [currentDraft] is not empty. This holds when the call begins in a
    store with nothing pending, and every step of the action function,
    every turn of the timers, the function given to [.then], the run of
    the function to its end, the return of the wrapped action and the
    settling of its promise keep it, also when a notification throws.
    So the function given to [setTimeout] always has a draft to give to
    [flushMutations]. *)
Theorem one_timer_with_its_draft (name : string) :
  (∀ w, timers w = [] → tidy (initial, w))
  ∧ (∀ s iw, tidy iw → tidy (fst (run_step s iw)))
  ∧ (∀ iw, tidy iw → tidy (run_timers name iw))
  ∧ (∀ iw, tidy iw → tidy (fst (on_fulfilled name iw)))
  ∧ (∀ rest iw, tidy iw → tidy (fst (continue name rest iw)))
  ∧ (∀ b w, timers w = [] → tidy (fst (call_action name b w)))
  ∧ (∀ p iw, tidy iw → tidy (fst (fst (settle name p iw))))
  ∧ (∀ i w h,
       tidy (i, w) → h ∈ timers w →
       ∃ d, currentDraft i = Some d
            ∧ fire name (i, w) h
              = fst (flush name d (i, with_timers [] (next_timer w) w))).
Proof.
  split_and!.
  - intros w Hp. by left.
  - apply run_step_tidy.
  - intros iw Ht. left. by apply run_timers_tidy.
  - intros iw Ht. left. by apply on_fulfilled_tidy.
  - intros rest. apply continue_tidy.
  - intros b w Hp.
    assert (tidy (initial, w)) as Hstart by (by left).
    unfold call_action. destruct b as [steps | steps rest].
    + pose proof (run_steps_tidy steps _ Hstart) as Hs.
      destruct (run_steps steps (initial, w)) as [[i w'] [e |]]; [done |].
      simpl in Hs. pose proof (clearTimeout_tidy i w' Hs) as Hc.
      destruct (currentDraft i) as [d |]; [| by left].
      destruct (flush_keeps name d i (clearTimeout (timeout i) w'))
        as [Hk _].
      destruct (flush name d (i, clearTimeout (timeout i) w'))
        as [[i' w''] [e |]]; left; simpl in *; congruence.
    + pose proof (run_steps_tidy steps _ Hstart) as Hs.
      by destruct (run_steps steps (initial, w)) as [[i w'] [e |]].
  - intros p iw Ht. unfold settle.
    assert (tidy
              (fst match p with
                   | Suspended rest => continue name rest iw
                   | Failed e => (iw, Rejected e)
                   end)) as Ht'.
    { destruct p; [by apply continue_tidy | done]. }
    destruct (match p with
              | Suspended rest => continue name rest iw
              | Failed e => (iw, Rejected e)
              end) as [iw' [| e]]; simpl in Ht'; [| done].
    pose proof (on_fulfilled_tidy name iw' Ht') as Hf.
    destruct (on_fulfilled name iw') as [iw'' [e |]]; by left.
  - intros i w h [Ht | (h' & d & Ht & Hh & Hd)] Hin; simpl in *.
    + rewrite Ht in Hin. by apply elem_of_nil in Hin.
    + rewrite Ht in Hin. apply list_elem_of_singleton in Hin as ->.
      exists d. split; [done |]. by apply fire_pending.
Qed.

(** X13. An action that returns a promise and whose function throws after
    it has gone through [state], before it is ever suspended. When the
    wrapped action returns, the draft is open and its timer pending. The
    promise is rejected with the error; the settling runs only the
    function given to [.catch] and changes nothing: the timer is still
    pending and nothing is committed. It is the timer that, when it
    fires, commits the edits made before the throw. *)
Theorem rejected_action_commits_by_timer (name : string)
  (f : draft → draft) (fs : list (draft → draft)) (e : error)
  (more : list step) (rest : list (resume * list step)) (w : world) :
  timers w = [] →
  let b := Async (map Access (f :: fs) ++ Raise e :: more) rest in
  let d := apply_all (f :: fs) (createDraft (currentState w)) in
  let n := next_timer w + length (f :: fs) in
  let r := run_action name b w in
  ∃ i h,
    call_action name b w = (i, with_timers [h] n w, Awaitable (Failed e))
    ∧ currentDraft i = Some d
    ∧ timeout i = Some h
    ∧ settle name (Failed e) (i, with_timers [h] n w)
      = (i, with_timers [h] n w, Rejected e, Rejected (on_rejected name e))
    ∧ caller r = Settles (Rejected e)
    ∧ chained r = Some (Rejected (on_rejected name e))
    ∧ after r = fst (flushMutations d name (with_timers [] n w))
    ∧ commits (trace (after r))
      = commits (trace w) ++ [(name, dirty_paths (snd (finishDraft d)))].
Proof.
  intros Hp b d n r.
  destruct (accesses_idle f fs _ w (start_idle w Hp))
    as (i & hs & Hrun & Harmed & _).
  fold d n in Hrun, Harmed.
  pose proof Harmed as (h & Hd & Ht & Hh & _ & Hf).
  simpl in Hd, Ht, Hh, Hf. subst hs.
  assert (call_action name b w
          = (i, with_timers [h] n w, Awaitable (Failed e))) as Hcall.
  { unfold b, call_action. by rewrite run_steps_app, Hrun. }
  pose proof (run_timers_armed name _ _ _ Harmed) as Hfire.
  change (with_timers [] _ (with_timers [h] n w))
    with (with_timers [] n w) in Hfire.
  destruct (flush_world name d i (with_timers [] n w) Hf) as [Hfw _].
  rewrite <- Hfire in Hfw.
  destruct (flushMutations_commit d name (with_timers [] n w))
    as (_ & _ & _ & Hc).
  assert (after r = fst (flushMutations d name (with_timers [] n w)))
    as Hafter.
  { subst r. by rewrite (run_action_async name b w _ _ _ Hcall). }
  exists i, h. split_and!; try done.
  - subst r. by rewrite (run_action_async name b w _ _ _ Hcall).
  - subst r. by rewrite (run_action_async name b w _ _ _ Hcall).
  - by rewrite Hafter.
Qed.

(** X19. A notification that throws in the turn of the timer leaves the
    call stuck. The action edits state, is suspended until the timer has
    fired, and goes through [state] again. The timer commits the first
    draft, but its notification throws, so that the finished draft
    stays in [currentDraft]: the later access opens no new draft, meets
    the finished one and fails with the error of the draft engine; the
    promise is rejected with it, the timer that access had armed finds
    the finished draft too, and the only commit is the first. *)
Theorem throwing_notification_wedges_call (name : string)
  (f g : draft → draft) (fs : list (draft → draft)) (more : list step)
  (e : error) (w : world) :
  timers w = [] →
  let b :=
    Async (map Access (f :: fs)) [(AfterTimers, Access g :: more)] in
  let d := apply_all (f :: fs) (createDraft (currentState w)) in
  let n := next_timer w + length (f :: fs) in
  let w1 := fst (flushMutations d name (with_timers [] n w)) in
  let r := run_action name b w in
  snd (flushMutations d name (with_timers [] n w)) = Some e →
  caller r = Settles (Rejected revoked)
  ∧ chained r = Some (Rejected (on_rejected name revoked))
  ∧ after r = with_timers [] (S n) w1
  ∧ currentState (after r) = fst (finishDraft d)
  ∧ commits (trace (after r))
    = commits (trace w) ++ [(name, dirty_paths (snd (finishDraft d)))].
Proof.
  intros Hp b d n w1 r Hthrow.
  destruct (call_async_armed name f fs [(AfterTimers, Access g :: more)] w Hp)
    as (i0 & h0 & Hcall & Harmed & _).
  fold d n b in Hcall, Harmed.
  pose proof Harmed as (h & Hd & Ht & Hh & _ & Hf).
  simpl in Hd, Ht, Hh, Hf. injection Hh as <-.
  destruct (flushMutations_commit d name (with_timers [] n w))
    as (Hs1 & Ht1 & Hn1 & Hc1).
  fold w1 in Hs1, Ht1, Hn1, Hc1. simpl in Ht1, Hn1, Hc1.
  set (i1 := {| currentDraft := currentDraft i0; timeout := timeout i0;
                generation := generation i0; finished := true |}).
  assert (run_timers name (i0, with_timers [h0] n w) = (i1, w1)) as Hfire.
  { rewrite (run_timers_armed name _ _ _ Harmed).
    change (with_timers [] _ (with_timers [h0] n w))
      with (with_timers [] n w).
    unfold flush. rewrite Hf. subst w1.
    destruct (flushMutations d name (with_timers [] n w)) as [wf o].
    simpl in Hthrow. by subst o. }
  set (i2 := {| currentDraft := Some d; timeout := Some n;
                generation := generation i0; finished := true |}).
  assert (run_step (Access g) (i1, w1)
          = (i2, with_timers [n] (S n) w1, Some revoked)) as Hstep.
  { unfold run_step, configureUpdate. subst i1. simpl.
    rewrite Hd, Ht. simpl. by rewrite Ht1, Hn1. }
  assert (continue name [(AfterTimers, Access g :: more)]
            (i0, with_timers [h0] n w)
          = (i2, with_timers [n] (S n) w1, Rejected revoked)) as Hcont.
  { cbn [continue run_steps]. by rewrite Hfire, Hstep. }
  assert (run_timers name (i2, with_timers [n] (S n) w1)
          = (i2, with_timers [] (S n) w1)) as Hlast.
  { unfold run_timers. simpl. unfold fire. simpl.
    rewrite decide_True by left.
    by rewrite filter_cons_False by (intros Hne; by apply Hne). }
  assert (after r = with_timers [] (S n) w1) as Hafter.
  { subst r. rewrite (run_action_async name b w _ _ _ Hcall).
    rewrite (settle_rejected name _ _ _ _ Hcont). cbn [after fst snd].
    by rewrite Hlast. }
  split_and!.
  - subst r. rewrite (run_action_async name b w _ _ _ Hcall).
    by rewrite (settle_rejected name _ _ _ _ Hcont).
  - subst r. rewrite (run_action_async name b w _ _ _ Hcall).
    by rewrite (settle_rejected name _ _ _ _ Hcont).
  - done.
  - by rewrite Hafter.
  - by rewrite Hafter.
Qed.

End ActionMore.

(** ** The actions of the store *)

Lemma read_assign_key {A} (key key' : string) (value : A)
  (target : list (string * A)) :
  read_key key' (assign_key key value target)
  = if decide (key = key') then Some value else read_key key' target.
Proof.
  induction target as [| [k v] target IH]; simpl.
  - by destruct (decide (key = key')).
  - destruct (decide (k = key)) as [-> | Hk]; simpl.
    + by destruct (decide (key = key')).
    + destruct (decide (k = key')) as [-> | Hk'].
      * by rewrite decide_False by done.
      * apply IH.
Qed.

Lemma read_key_absent {A} (key : string) (target : list (string * A)) :
  key ∉ map fst target → read_key key target = None.
Proof.
  induction target as [| [k v] target IH]; simpl; [done |].
  intros Hk. rewrite not_elem_of_cons in Hk. destruct Hk as [Hne Hk].
  rewrite decide_False by done. by apply IH.
Qed.

Lemma assign_key_fresh {A} (key : string) (value : A)
  (target : list (string * A)) :
  key ∉ map fst target → assign_key key value target = target ++ [(key, value)].
Proof.
  induction target as [| [k v] target IH]; simpl; [done |].
  intros Hk. rewrite not_elem_of_cons in Hk. destruct Hk as [Hne Hk].
  rewrite decide_False by done. by rewrite IH.
Qed.

Section Actions.
Context `{DraftEngine}.

(** One turn of the [reduce]: the exposed value goes under the key. *)
Lemma reduce_key_expose (path : list string)
  (aggr : list (string * exposed)) (key : string) (n : declared) :
  reduce_key path aggr key n = assign_key key (expose (path ++ [key]) n) aggr.
Proof.
  destruct n as [func | members]; simpl; [done |].
  do 2 f_equal. unfold createNestedStructure.
  generalize (@nil (string * exposed)).
  induction members as [| [k n] members IH]; intros aggr'; simpl; [done |].
  apply IH.
Qed.

Lemma createNestedStructure_read (path : list string) (key : string)
  (structure : list (string * declared)) :
  ∀ aggr : list (string * exposed),
    NoDup (map fst structure) →
    read_key key
      (fold_left (λ aggr kn, reduce_key path aggr (fst kn) (snd kn))
         structure aggr)
    = match read_key key structure with
      | Some n => Some (expose (path ++ [key]) n)
      | None => read_key key aggr
      end.
Proof.
  induction structure as [| [k n] structure IH]; intros aggr Hnd; simpl;
    [done |].
  simpl in Hnd. apply NoDup_cons in Hnd as [Hk Hnd].
  rewrite IH by done. rewrite reduce_key_expose, read_assign_key.
  destruct (decide (k = key)) as [-> | Hne]; [| done].
  by rewrite (read_key_absent key structure Hk).
Qed.

Lemma createNestedStructure_keys (path : list string)
  (structure : list (string * declared)) :
  ∀ aggr : list (string * exposed),
    NoDup (map fst aggr ++ map fst structure) →
    map fst
      (fold_left (λ aggr kn, reduce_key path aggr (fst kn) (snd kn))
         structure aggr)
    = map fst aggr ++ map fst structure.
Proof.
  induction structure as [| [k n] structure IH]; intros aggr Hnd; simpl.
  - by rewrite app_nil_r.
  - simpl in Hnd. rewrite cons_middle, app_assoc in Hnd.
    rewrite reduce_key_expose. rewrite IH.
    + rewrite assign_key_fresh; [by rewrite map_app, <- app_assoc |].
      apply NoDup_app in Hnd as [Hnd _].
      apply NoDup_app in Hnd as (_ & Hk & _).
      intros Hin. apply (Hk k Hin). left.
    + rewrite assign_key_fresh; [by rewrite map_app |].
      apply NoDup_app in Hnd as [Hnd _].
      apply NoDup_app in Hnd as (_ & Hk & _).
      intros Hin. apply (Hk k Hin). left.
Qed.

Lemma keyed_once_member (members : list (string * declared)) (key : string)
  (n : declared) :
  keyed_once (Nest members) → read_key key members = Some n → keyed_once n.
Proof.
  intros [_ Hall]. induction members as [| [k m] members IH]; simpl; [done |].
  destruct Hall as [Hm Hall].
  destruct (decide (k = key)); [by intros [= <-] | by apply IH].
Qed.

Lemma exposed_at_expose (ks : list string) :
  ∀ (n : declared) (path : list string),
    keyed_once n →
    exposed_at ks (expose path n) = expose (path ++ ks) <$> declared_at ks n.
Proof.
  induction ks as [| k ks IH]; intros n path Hn; simpl.
  - by rewrite app_nil_r.
  - destruct n as [func | members]; simpl; [done |].
    unfold createNestedStructure.
    rewrite createNestedStructure_read by apply Hn. simpl.
    destruct (read_key k members) as [n |] eqn:Hk; simpl; [| done].
    rewrite IH by (by eapply keyed_once_member).
    by rewrite <- app_assoc.
Qed.

(** X15. The actions of the store mirror the declared ones. Under the
    keys that lead to a declared function the store has the wrapped
    action of that function, named by these keys joined with dots; under
    keys that lead to a declared group it has a group; under keys that
    lead nowhere it has nothing; the keys of the store's actions are the
    declared ones, in their order; and without declared actions the
    store has none. *)
Theorem store_actions_mirror (actions : list (string * declared))
  (ks : list string) :
  keyed_once (Nest actions) →
  let store := Group (store_actions (Some actions)) in
  (∀ func,
     declared_at ks (Nest actions) = Some (Fn func) →
     exposed_at ks store = Some (Act (String.concat "." ks) func))
  ∧ (∀ members,
       declared_at ks (Nest actions) = Some (Nest members) →
       exposed_at ks store = Some (Group (createNestedStructure members ks)))
  ∧ (declared_at ks (Nest actions) = None → exposed_at ks store = None)
  ∧ map fst (store_actions (Some actions)) = map fst actions
  ∧ store_actions None = [].
Proof.
  intros Hn store.
  assert (exposed_at ks store = expose ks <$> declared_at ks (Nest actions))
    as Hat.
  { subst store. apply (exposed_at_expose ks (Nest actions) [] Hn). }
  split_and!.
  - intros func Hd. by rewrite Hat, Hd.
  - intros members Hd. by rewrite Hat, Hd.
  - intros Hd. by rewrite Hat, Hd.
  - unfold store_actions, createNestedStructure. simpl.
    rewrite createNestedStructure_keys; [done |]. apply Hn.
  - done.
Qed.

End Actions.
(** ** Who is called *)

Section Targeting.
Context `{DraftEngine} `{Callbacks}.





End Targeting.

(** ** Paths named like a member of [Object.prototype] *)

Section Inherited.
Context `{DraftEngine} `{Callbacks}.

Lemma add_listener_normal (sub : subscription)
  (pl : gmap string (list subscription)) (p : string) :
  p ∉ prototype_members → snd (add_listener sub pl p) = None.
Proof.
  intros Hp.
  destruct (add_listener_cases sub pl p) as [[_ ->] | [Hinh _]]; [done |].
  by apply get_ordinary in Hinh.
Qed.

(** X20. A call of [subscribe] with a set that holds a path named like a
    member of [Object.prototype] throws when it comes to that path: the
    subscription object has been made and is at the end of the buckets
    of the paths that come before it in the set, it is in no other
    bucket, and no disposer is returned to take it out. *)
Theorem subscribe_throws_on_inherited_name (w : world) (u : callback)
  (r : nat) (name : option string) (pre post : list string) (q : string) :
  sets w !! r = Some (pre ++ q :: post) →
  NoDup (pre ++ q :: post) →
  ordinary pre →
  q ∈ prototype_members →
  pathListeners w !! q = None →
  let sub := {| sub_id := objects w; update := u; name := name |} in
  let w1 := fst (subscribe u (Some r) name w) in
  snd (subscribe u (Some r) name w)
  = Throw (not_a_function "pathListeners[path].push")
  ∧ (∀ p, bucket w1 p
          = if decide (p ∈ pre) then bucket w p ++ [sub] else bucket w p)
  ∧ objects w1 = S (objects w)
  ∧ globalListeners w1 = globalListeners w.
Proof.
  intros Hr Hnd Hord Hq Hnone sub w1.
  apply NoDup_app in Hnd as (Hpre & Hapart & _).
  assert (q ∉ pre) as Hqpre.
  { intros Hin. apply (Hapart q Hin). left. }
  destruct (forEach (add_listener sub) pre (pathListeners w))
    as [pl1 r1] eqn:Hrun1.
  pose proof (forEach_normal (add_listener sub) (λ p, p ∉ prototype_members)
                (λ pl p, add_listener_normal sub pl p) pre (pathListeners w)
                Hord) as Hn.
  rewrite Hrun1 in Hn. simpl in Hn. subst r1.
  destruct (add_listeners_reached sub pre _ _ _ Hpre Hrun1)
    as (reached & Hlook & ->).
  assert (add_listener sub pl1 q
          = (pl1, Some (not_a_function "pathListeners[path].push")))
    as Hturn.
  { destruct (add_listener_cases sub pl1 q) as [[Hg _] | [_ Hadd]]; [| done].
    destruct Hg. apply get_inherited. split; [| done].
    by rewrite Hlook, decide_False. }
  assert (subscribe u (Some r) name w
          = (with_pathListeners pl1 (with_objects (S (objects w)) w),
             Throw (not_a_function "pathListeners[path].push"))) as Hsub.
  { unfold subscribe. rewrite Hr. simpl default. fold sub.
    change (pathListeners (with_objects (S (objects w)) w))
      with (pathListeners w).
    rewrite forEach_app, Hrun1. cbn [forEach]. by rewrite Hturn. }
  subst w1. rewrite Hsub. split_and!; try done.
  intros p. unfold bucket. simpl. rewrite Hlook. by case_decide.
Qed.

(** X21. A notification whose dirty set holds a path named like a member
    of [Object.prototype] throws when it comes to that path: with
    update functions that leave the registry alone, the subscriptions of
    the buckets of the dirty paths before it have been called, those of
    the later dirty paths and the global subscribers are not called. The
    commit it belongs to has replaced the state all the same. *)
Theorem updateListeners_throws_on_inherited_name (w : world)
  (pre post : list string) (q : string) :
  ordinary pre →
  q ∈ prototype_members →
  pathListeners w !! q = None →
  (∀ p s, s ∈ bucket w p → effect (update s) = []) →
  let called := concat (map (λ p, map (λ s, Render s p) (bucket w p)) pre) in
  updateListeners (pre ++ q :: post) w
  = (logs called w, Some (not_a_function "pathListeners[path].forEach"))
  ∧ ∀ d name,
      dirty_paths (snd (finishDraft d)) = pre ++ q :: post →
      flushMutations d name w
      = (logs (Mutations name (pre ++ q :: post) :: called)
           (with_state (fst (finishDraft d)) w),
         Some (not_a_function "pathListeners[path].forEach")).
Proof.
  intros Hord Hq Hnone Hquiet called.
  assert (∀ w' : world,
            pathListeners w' = pathListeners w →
            updateListeners (pre ++ q :: post) w'
            = (logs called w',
               Some (not_a_function "pathListeners[path].forEach")))
    as Hthrow.
  { intros w' Hpl. unfold updateListeners.
    rewrite forEach_app, notify_paths_quiet; [| done |].
    2:{ intros p s. unfold bucket. rewrite Hpl. apply Hquiet. }
    assert (concat (map (λ p, map (λ s, Render s p) (bucket w' p)) pre)
            = called) as ->.
    { subst called. unfold bucket. by rewrite Hpl. }
    cbn [forEach]. unfold notify_path.
    assert (get (pathListeners (logs called w')) q = Inherited) as ->; [| done].
    apply get_inherited. simpl. by rewrite Hpl. }
  split; [by apply Hthrow |].
  intros d name Hd. unfold flushMutations, getUpdate.
  destruct (finishDraft d) as [newState ops]. simpl in Hd. rewrite Hd.
  rewrite Hthrow by done. unfold logs. simpl.
  by rewrite <- app_assoc.
Qed.

End Inherited.

(** ** Resumptions before the timers fire *)

Section Bursts.
Context `{DraftEngine} `{Callbacks}.

Lemma apply_all_app (fs gs : list (draft → draft)) (d : draft) :
  apply_all (fs ++ gs) d = apply_all gs (apply_all fs d).
Proof. unfold apply_all. apply fold_left_app. Qed.

Lemma continue_same_turn (name : string)
  (gss : list (list (draft → draft))) :
  ∀ (i : invocation) (w : world) (d : draft),
    armed (i, w) d →
    ∃ i' h,
      continue name (map (λ gs, (BeforeTimers, map Access gs)) gss) (i, w)
      = (i', with_timers h (next_timer w + length (concat gss)) w, Fulfilled)
      ∧ armed (i', with_timers h (next_timer w + length (concat gss)) w)
          (apply_all (concat gss) d).
Proof.
  induction gss as [| gs gss IH]; intros i w d Harmed.
  - exists i, (timers w). simpl. rewrite Nat.add_0_r, with_timers_id. done.
  - destruct (accesses_armed gs _ _ _ Harmed)
      as (i2 & h2 & Hrun2 & Harmed2 & _).
    destruct (IH _ _ _ Harmed2) as (i' & h & Hcont & Harmed').
    exists i', h. cbn [map continue]. rewrite Hrun2, Hcont.
    simpl concat. rewrite length_app, apply_all_app, Nat.add_assoc.
    done.
Qed.

(** X18. An action that returns a promise and, after its first
    accesses, only ever resumes before the timers fire: all its accesses
    go to one draft, whose timer is still pending, with nothing
    committed, when the function has run to its end; the function given
    to [.then] cancels that timer and makes the one commit of the call,
    which holds the edits of all the parts. *)
Theorem same_turn_one_commit (name : string) (f : draft → draft)
  (fs : list (draft → draft)) (gss : list (list (draft → draft)))
  (w : world) :
  timers w = [] →
  let rest := map (λ gs, (BeforeTimers, map Access gs)) gss in
  let b := Async (map Access (f :: fs)) rest in
  let d := apply_all (f :: fs ++ concat gss) (createDraft (currentState w)) in
  let n1 := next_timer w + length (f :: fs) in
  let n2 := n1 + length (concat gss) in
  let w2 := fst (flushMutations d name (with_timers [] n2 w)) in
  let r := run_action name b w in
  ∃ i0 h0 i1 h1,
    call_action name b w
    = (i0, with_timers [h0] n1 w, Awaitable (Suspended rest))
    ∧ continue name rest (i0, with_timers [h0] n1 w)
      = (i1, with_timers [h1] n2 w, Fulfilled)
    ∧ currentDraft i1 = Some d
    ∧ timeout i1 = Some h1
    ∧ snd (fst (on_fulfilled name (i1, with_timers [h1] n2 w))) = w2
    ∧ timers w2 = []
    ∧ caller r = Settles Fulfilled
    ∧ after r = w2
    ∧ commits (trace (after r))
      = commits (trace w) ++ [(name, dirty_paths (snd (finishDraft d)))].
Proof.
  intros Hp rest b d n1 n2 w2 r.
  destruct (call_async_armed name f fs rest w Hp)
    as (i0 & h0 & Hcall & Harmed1 & _).
  fold n1 b in Hcall, Harmed1.
  destruct (continue_same_turn name gss _ _ _ Harmed1)
    as (i1 & h & Hcont & Harmed2).
  fold rest in Hcont.
  change (with_timers h _ (with_timers [h0] n1 w))
    with (with_timers h n2 w) in Hcont, Harmed2.
  assert (apply_all (concat gss)
            (apply_all (f :: fs) (createDraft (currentState w))) = d) as Hd.
  { subst d. by rewrite app_comm_cons, apply_all_app. }
  rewrite Hd in Harmed2.
  pose proof Harmed2 as (h1 & Hd1 & Ht1 & Hh & _ & Hf).
  simpl in Hd1, Ht1, Hh, Hf. subst h.
  pose proof (on_fulfilled_armed name _ _ _ Harmed2) as Hful.
  change (with_timers [] _ (with_timers [h1] n2 w))
    with (with_timers [] n2 w) in Hful.
  destruct (flush_world name d i1 (with_timers [] n2 w) Hf) as [Hfw _].
  fold w2 in Hfw. rewrite <- Hful in Hfw.
  destruct (flushMutations_commit d name (with_timers [] n2 w))
    as (_ & Ht & _ & Hc).
  fold w2 in Ht, Hc. simpl in Ht, Hc.
  assert (after r = w2) as Hafter.
  { subst r. rewrite (run_action_async name b w _ _ _ Hcall).
    rewrite (settle_fulfilled name rest _ _ Hcont). cbn [after fst snd].
    destruct (on_fulfilled name (i1, with_timers [h1] n2 w))
      as [[i2 w2'] e]. cbn [fst snd] in *. subst w2'.
    by rewrite run_timers_idle. }
  exists i0, h0, i1, h1. split_and!; try done.
  - subst r. rewrite (run_action_async name b w _ _ _ Hcall).
    by rewrite (settle_fulfilled name rest _ _ Hcont).
  - by rewrite Hafter.
Qed.

End Bursts.
(** ** Examples for the rest of the store *)

Lemma three_on_x_bucket (p : string) :
  bucket three_on_x p = if decide (p = "x") then [sub0; sub1; sub2] else [].
Proof.
  assert (pathListeners three_on_x = {[ "x" := [sub0; sub1; sub2] ]}) as Hpl
    by (by vm_compute).
  unfold bucket. rewrite Hpl.
  destruct (decide (p = "x")) as [-> | Hp].
  - by rewrite lookup_singleton_eq.
  - by rewrite lookup_singleton_ne.
Qed.

Lemma three_on_x_ids (p : string) : NoDup (map sub_id (bucket three_on_x p)).
Proof.
  rewrite three_on_x_bucket. case_decide; simpl; [compute_done |].
  apply NoDup_nil_2.
Qed.

Lemma three_on_x_quiet (p : string) (s : subscription) :
  s ∈ bucket three_on_x p → @effect quiet (update s) = [].
Proof. reflexivity. Qed.

Lemma dispose_removes_subscription_witness :
  (∀ p,
     bucket (dispose (DisposePaths sub1 ["x"]) three_on_x) p
     = if decide (p ∈ ["x"])
       then filter (λ s, s ≠ sub1) (bucket three_on_x p)
       else bucket three_on_x p)
  ∧ globalListeners (dispose (DisposePaths sub1 ["x"]) three_on_x)
    = globalListeners three_on_x
  ∧ currentState (dispose (DisposePaths sub1 ["x"]) three_on_x)
    = currentState three_on_x.
Proof.
  apply (@dispose_removes_subscription journal sub1 ["x"] three_on_x).
  - apply NoDup_singleton.
  - apply three_on_x_ids.
  - intros p ->%list_elem_of_singleton. rewrite three_on_x_bucket.
    simpl. compute_done.
Defined.

Lemma disposed_never_called_witness :
  let w' := dispose (DisposePaths sub1 ["x"]) three_on_x in
  (∀ p, sub1 ∉ bucket w' p)
  ∧ (∃ es, trace (fst (@updateListeners journal unmounting ["x"] w'))
           = trace w' ++ es
           ∧ ∀ p, Render sub1 p ∉ es)
  ∧ (∃ es, trace (fst (@flushMutations journal unmounting
                         ([], [assign "x"]) "act" w'))
           = trace w' ++ es
           ∧ ∀ p, Render sub1 p ∉ es).
Proof.
  apply (@disposed_never_called journal unmounting sub1 ["x"] ["x"]
           ([], [assign "x"]) "act" three_on_x).
  - apply NoDup_singleton.
  - apply three_on_x_ids.
  - intros p. rewrite three_on_x_bucket, list_elem_of_singleton.
    case_decide as Hp; [split; [done | intros _; compute_done] |].
    split; [by intros ?%elem_of_nil | done].
Defined.

(** The function 5 is subscribed twice, after 6 and after 7: its disposer
    takes the first of the two entries out and leaves the rest in
    order. *)
Lemma dispose_global_first_witness :
  globalListeners four_globals = [6; 5; 7; 5]
  ∧ globalListeners (dispose (DisposeGlobal 5) four_globals) = [6] ++ [7; 5]
  ∧ pathListeners (dispose (DisposeGlobal 5) four_globals)
    = pathListeners four_globals.
Proof.
  split; [reflexivity |].
  apply (@dispose_global_first journal 5 [6] [7; 5] four_globals).
  - reflexivity.
  - by intros ?%list_elem_of_singleton.
Defined.

Lemma dispose_absent_removes_last_witness :
  (∀ p,
     bucket
       (dispose
          (DisposePaths {| sub_id := 9; update := 7; name := None |} ["x"])
          three_on_x) p
     = if decide (p ∈ ["x"])
       then removelast (bucket three_on_x p)
       else bucket three_on_x p)
  ∧ globalListeners (dispose (DisposeGlobal 6) three_on_x)
    = removelast (globalListeners three_on_x).
Proof.
  pose proof (@dispose_absent_removes_last journal three_on_x)
    as [Hpaths Hglobal].
  split.
  - apply Hpaths; [apply NoDup_singleton |].
    intros p s _. rewrite three_on_x_bucket. case_decide.
    + rewrite !elem_of_cons, elem_of_nil.
      intros [-> | [-> | [-> | []]]]; simpl; lia.
    + by intros ?%elem_of_nil.
  - apply Hglobal. simpl. by intros ?%list_elem_of_singleton.
Defined.


Lemma root_member_marks_root_witness :
  "" ∈ dirty_paths [{| op := OpRemove; path := [Name "done"] |}]
  ∧ dirty_paths [{| op := OpAdd; path := [Name "done"] |}] = [""; "done"].
Proof.
  pose proof root_member_marks_root as [Hin Hlist].
  split.
  - apply (Hin _ {| op := OpRemove; path := [Name "done"] |} (Name "done"));
      [apply list_elem_of_singleton; reflexivity | reflexivity | by right].
  - apply (Hlist "done"). discriminate.
Defined.

Lemma plain_actions_compose_witness :
  let r1 :=
    @run_action journal quiet "first" (Plain [edit (assign "a")]) store_x in
  let r2 :=
    @run_action journal quiet "second" (Plain [edit (assign "b")])
      (after r1) in
  currentState (after r1) = [assign "a"]
  ∧ currentState (after r2) = [assign "a"; assign "b"]
  ∧ commits (trace (after r2)) = [("first", ["a"]); ("second", ["b"])]
  ∧ timers (after r2) = [].
Proof.
  apply (@plain_actions_compose journal quiet "first" "second"
           (record (assign "a")) (record (assign "b")) [] [] store_x).
  reflexivity.
Defined.


Lemma no_access_no_commit_witness :
  after (@run_action journal quiet "act"
           (Async [] [(AfterTimers, [@Raise journal boom])]) three_on_x)
  = three_on_x.
Proof.
  apply (@no_access_no_commit journal quiet "act"
           (Async [] [(AfterTimers, [@Raise journal boom])]) three_on_x).
  - reflexivity.
  - simpl. apply Forall_cons. split; [by intros [] | apply Forall_nil_2].
Defined.

(** A call whose first notification throws: when it returns, and when
    its promise has settled, at most the one timer is pending. *)
Lemma one_timer_with_its_draft_witness :
  let b :=
    Async [edit (assign "valueOf")]
      [(AfterTimers, [edit (assign "b"); @Raise journal boom])] in
  let called := fst (@call_action journal quiet "act" b three_on_x) in
  tidy called
  ∧ tidy (fst (fst (@settle journal quiet "act"
                      (Suspended
                         [(AfterTimers,
                           [edit (assign "b"); @Raise journal boom])])
                      called))).
Proof.
  intros b called.
  pose proof (@one_timer_with_its_draft journal quiet "act")
    as (_ & _ & _ & _ & _ & Hcall & Hsettle & _).
  assert (tidy called) as Hc by (apply Hcall; reflexivity).
  split; [exact Hc | by apply Hsettle].
Defined.

Lemma rejected_action_commits_by_timer_witness :
  let r :=
    @run_action journal quiet "act"
      (Async (map (@Access journal) [record (assign "x")]
                ++ [@Raise journal boom]) []) three_on_x in
  caller r = Settles (Rejected boom)
  ∧ chained r = Some (Rejected boom)
  ∧ commits (trace (after r)) = [("act", ["x"])].
Proof.
  destruct (@rejected_action_commits_by_timer journal quiet "act"
              (record (assign "x")) [] boom [] [] three_on_x eq_refl)
    as (i & h & _ & _ & _ & _ & Hcaller & Hchained & _ & Hcommits).
  split_and!; [exact Hcaller | exact Hchained | exact Hcommits].
Defined.

(** The action writes "valueOf", is suspended until the timer has fired,
    and writes "b": the notification of the first commit throws, the
    second write fails, and "b" is never committed. *)
Lemma throwing_notification_wedges_call_witness :
  let r :=
    @run_action journal quiet "act"
      (Async [edit (assign "valueOf")] [(AfterTimers, [edit (assign "b")])])
      three_on_x in
  caller r = Settles (Rejected (@revoked journal))
  ∧ chained r = Some (Rejected (Err (disposed_message "act")))
  ∧ currentState (after r) = [assign "valueOf"]
  ∧ commits (trace (after r)) = [("act", ["valueOf"])].
Proof.
  destruct (@throwing_notification_wedges_call journal quiet "act"
              (record (assign "valueOf")) (record (assign "b")) [] []
              (not_a_function "pathListeners[path].forEach") three_on_x
              eq_refl eq_refl)
    as (Hcaller & Hchained & _ & Hstate & Hcommits).
  split_and!; [exact Hcaller | exact Hchained | exact Hstate | exact Hcommits].
Defined.

Lemma store_actions_mirror_witness :
  let store := Group (store_actions (Some declared_example)) in
  exposed_at ["user"; "login"] store
  = Some (Act "user.login" (Plain [edit (assign "name")]))
  ∧ exposed_at ["reset"] store
    = Some (Act "reset" (Plain [edit (assign "count")]))
  ∧ exposed_at ["user"; "logout"] store = None
  ∧ map fst (store_actions (Some declared_example)) = ["reset"; "user"].
Proof.
  assert (keyed_once (Nest declared_example)) as Hk.
  { simpl. split_and!; try done; compute_done. }
  pose proof (@store_actions_mirror journal declared_example
                ["user"; "login"] Hk) as (Hfn & _ & _ & Hkeys & _).
  pose proof (@store_actions_mirror journal declared_example
                ["reset"] Hk) as (Hfn' & _).
  pose proof (@store_actions_mirror journal declared_example
                ["user"; "logout"] Hk) as (_ & _ & Hnone & _).
  split_and!.
  - apply Hfn. reflexivity.
  - apply Hfn'. reflexivity.
  - apply Hnone. reflexivity.
  - exact Hkeys.
Defined.


(** A subscription on {"x", "constructor", "y"}: the call throws at
    "constructor", with the subscription left in the bucket of "x"
    and not in that of "y". *)
Lemma subscribe_throws_on_inherited_name_witness :
  let sub := {| sub_id := 0; update := 7; name := None |} in
  let w1 := fst (subscribe 7 (Some 0) None store_proto) in
  snd (subscribe 7 (Some 0) None store_proto)
  = Throw (not_a_function "pathListeners[path].push")
  ∧ bucket w1 "x" = [sub]
  ∧ bucket w1 "y" = [].
Proof.
  intros sub w1.
  destruct (@subscribe_throws_on_inherited_name journal store_proto 7 0 None
              ["x"] ["y"] "constructor")
    as (Hthrow & Hb & _).
  - reflexivity.
  - compute_done.
  - compute_done.
  - compute_done.
  - reflexivity.
  - split_and!; [exact Hthrow | apply (Hb "x") | apply (Hb "y")].
Defined.

(** The dirty paths "x", "valueOf" and "y": the three subscriptions on
    "x" are called, then the notification throws, and the global
    subscriber is not called. *)
Lemma updateListeners_throws_on_inherited_name_witness :
  @updateListeners journal quiet ["x"; "valueOf"; "y"] three_on_x
  = (logs [Render sub0 "x"; Render sub1 "x"; Render sub2 "x"] three_on_x,
     Some (not_a_function "pathListeners[path].forEach")).
Proof.
  destruct (@updateListeners_throws_on_inherited_name journal quiet three_on_x
              ["x"] ["y"] "valueOf")
    as [Hthrow _].
  - compute_done.
  - compute_done.
  - reflexivity.
  - apply three_on_x_quiet.
  - exact Hthrow.
Defined.

(** Two resumptions before the timers fire: one commit, with the paths
    of the three parts. *)
Lemma same_turn_one_commit_witness :
  let r :=
    @run_action journal quiet "act"
      (Async [edit (assign "a")]
         [(BeforeTimers, [edit (assign "b")]);
          (BeforeTimers, [edit (assign "c")])]) store_x in
  caller r = Settles Fulfilled
  ∧ commits (trace (after r)) = [("act", ["a"; "b"; "c"])].
Proof.
  destruct (@same_turn_one_commit journal quiet "act" (record (assign "a")) []
              [[record (assign "b")]; [record (assign "c")]] store_x eq_refl)
    as (i0 & h0 & i1 & h1 & _ & _ & _ & _ & _ & _ & Hcaller & _ & Hcommits).
  split; [exact Hcaller | exact Hcommits].
Defined.
